(** * usage/printer.go: the help-text normaliser

    A shallow embedding of [markdownify], [findSectionEnd] and
    [helpPreprocessor] of package [usage], together with the parts of Go's
    [bytes.Buffer], [unicode/utf8], [unicode], [strings] and [regexp] that
    these functions call, and of [randWithDictionary] of the [rand] command.

    Go strings and byte slices are [list byte]; a [bytes.Buffer] is a record
    with the fields of the Go struct; Go's [(value, error)] results are
    pairs whose error component is an [option]. *)

From Stdlib Require Import Strings.String Strings.Byte.
From Stdlib Require Import List ZArith Lia Bool Arith Permutation.
Import ListNotations.

Local Open Scope list_scope.
Local Open Scope bool_scope.

(** ** Byte strings *)

Definition bstring : Type := list byte.

(** A Go string literal. *)
Definition B (s : string) : bstring := list_byte_of_string s.
Arguments B s%_string.

Notation "a =b? b" := (Byte.eqb a b) (at level 70, no associativity).

Definition byteZ (b : byte) : Z := Z.of_N (Byte.to_N b).

(** [s[lo:hi]], [s[lo:]] and [s[:hi]] on a string. *)
Definition slice (s : bstring) (lo hi : nat) : bstring := firstn (hi - lo) (skipn lo s).

(** ** bytes.Buffer *)

Module Buffer.

(** [readOp]: an [int8] constant describing the last read operation. *)
Definition opRead : Z := -1.
Definition opInvalid : Z := 0.
Definition opReadRune1 : Z := 1.

Inductive error := EOF | errUnreadByte | errUnreadRune.

Record t := mk {
  buf : bstring;      (* contents are the bytes buf[off : len(buf)] *)
  off : nat;          (* read at &buf[off], write at &buf[len(buf)] *)
  lastRead : Z        (* last read operation, so that Unread* can work *)
}.

(** [new(bytes.Buffer)]: the zero value. *)
Definition new : t := mk [] 0 opInvalid.

(** A buffer into which [s] has been written and nothing read. *)
Definition holding (s : bstring) : t := mk s 0 opInvalid.

(** The invariant [off <= len(buf)] of the Go type. *)
Definition wf (b : t) : Prop := off b <= length (buf b).

Definition empty (b : t) : bool := length (buf b) <=? off b.

Definition Len (b : t) : nat := length (buf b) - off b.

Definition Reset (b : t) : t := mk [] 0 opInvalid.

(** [b.String()]: the unread portion, [string(b.buf[b.off:])]. *)
Definition String (b : t) : bstring := skipn (off b) (buf b).

(** [WriteByte] and [WriteString] append; where Go's [grow] moves the
    unread bytes to the front of the slice, the contents stay the same. *)
Definition WriteByte (b : t) (c : byte) : t :=
  mk (buf b ++ [c]) (off b) opInvalid.

Definition WriteString (b : t) (s : bstring) : t :=
  mk (buf b ++ s) (off b) opInvalid.

(** [ReadByte]: at end of data the buffer is reset and [(0, io.EOF)]
    is returned. *)
Definition ReadByte (b : t) : byte * option error * t :=
  if empty b then (x00, Some EOF, Reset b)
  else (nth (off b) (buf b) x00, None, mk (buf b) (S (off b)) opRead).

(** [UnreadByte]: fails unless the previous operation was a successful
    read; a success leaves [lastRead = opInvalid]. *)
Definition UnreadByte (b : t) : option error * t :=
  if Z.eqb (lastRead b) opInvalid then (Some errUnreadByte, b)
  else (None, mk (buf b) (if 0 <? off b then off b - 1 else off b) opInvalid).

End Buffer.

(** ** unicode/utf8 and unicode *)

Module utf8.
Local Open Scope Z_scope.

Definition RuneError : Z := 0xFFFD.
Definition RuneSelf : Z := 0x80.

Definition locb : Z := 0x80.
Definition hicb : Z := 0xBF.
Definition maskx : Z := 0x3F.
Definition mask2 : Z := 0x1F.
Definition mask3 : Z := 0x0F.
Definition mask4 : Z := 0x07.

Definition xx : Z := 0xF1.
Definition as_ : Z := 0xF0.
Definition s1 : Z := 0x02.
Definition s2 : Z := 0x13.
Definition s3 : Z := 0x03.
Definition s4 : Z := 0x23.
Definition s5 : Z := 0x34.
Definition s6 : Z := 0x04.
Definition s7 : Z := 0x44.

(** The table [first], row by row. *)
Definition first (p0 : Z) : Z :=
  if p0 <? 0x80 then as_
  else if p0 <? 0xC2 then xx
  else if p0 <? 0xE0 then s1
  else if p0 =? 0xE0 then s2
  else if p0 <? 0xED then s3
  else if p0 =? 0xED then s4
  else if p0 <? 0xF0 then s3
  else if p0 =? 0xF0 then s5
  else if p0 <? 0xF4 then s6
  else if p0 =? 0xF4 then s7
  else xx.

(** The table [acceptRanges], as [(lo, hi)]. *)
Definition acceptRanges (i : Z) : Z * Z :=
  if i =? 0 then (locb, hicb)
  else if i =? 1 then (0xA0, hicb)
  else if i =? 2 then (locb, 0x9F)
  else if i =? 3 then (0x90, hicb)
  else if i =? 4 then (locb, 0x8F)
  else (0, 0).

Definition DecodeRune (p : bstring) : Z * nat :=
  match p with
  | [] => (RuneError, 0%nat)
  | c0 :: p1 =>
    let p0 := byteZ c0 in
    let x := first p0 in
    if as_ <=? x then
      ((if Z.testbit x 0 then RuneError else p0), 1%nat)
    else
      let sz := Z.land x 7 in
      let '(lo, hi) := acceptRanges (Z.shiftr x 4) in
      if Z.of_nat (length p) <? sz then (RuneError, 1%nat)
      else
        let b1 := byteZ (nth 0 p1 x00) in
        if (b1 <? lo) || (hi <? b1) then (RuneError, 1%nat)
        else if sz <=? 2 then
          (Z.lor (Z.shiftl (Z.land p0 mask2) 6) (Z.land b1 maskx), 2%nat)
        else
          let b2 := byteZ (nth 1 p1 x00) in
          if (b2 <? locb) || (hicb <? b2) then (RuneError, 1%nat)
          else if sz <=? 3 then
            (Z.lor (Z.lor (Z.shiftl (Z.land p0 mask3) 12)
                          (Z.shiftl (Z.land b1 maskx) 6))
                   (Z.land b2 maskx), 3%nat)
          else
            let b3 := byteZ (nth 2 p1 x00) in
            if (b3 <? locb) || (hicb <? b3) then (RuneError, 1%nat)
            else
              (Z.lor (Z.lor (Z.lor (Z.shiftl (Z.land p0 mask4) 18)
                                   (Z.shiftl (Z.land b1 maskx) 12))
                            (Z.shiftl (Z.land b2 maskx) 6))
                     (Z.land b3 maskx), 4%nat)
  end.

End utf8.

Module unicode.
Local Open Scope Z_scope.

Definition MaxLatin1 : Z := 0xFF.

(** The range table [White_Space] beyond Latin-1. *)
Definition White_Space_excludingLatin (r : Z) : bool :=
  (r =? 0x1680) || ((0x2000 <=? r) && (r <=? 0x200a))
  || ((0x2028 <=? r) && (r <=? 0x2029))
  || (r =? 0x202f) || (r =? 0x205f) || (r =? 0x3000).

Definition IsSpace (r : Z) : bool :=
  if r <=? MaxLatin1 then
    (r =? 0x09) || (r =? 0x0A) || (r =? 0x0B) || (r =? 0x0C) || (r =? 0x0D)
    || (r =? 0x20) || (r =? 0x85) || (r =? 0xA0)
  else White_Space_excludingLatin r.

End unicode.

Module BufferRune.
Import Buffer.

(** [ReadRune]: the next UTF-8 encoded code point and its size. *)
Definition ReadRune (b : t) : Z * nat * option error * t :=
  if empty b then (0%Z, 0%nat, Some EOF, Reset b)
  else
    let c := byteZ (nth (off b) (buf b) x00) in
    if Z.ltb c utf8.RuneSelf then
      (c, 1%nat, None, mk (buf b) (S (off b)) opReadRune1)
    else
      let '(r, n) := utf8.DecodeRune (skipn (off b) (buf b)) in
      (r, n, None, mk (buf b) (off b + n) (Z.of_nat n)).

(** [UnreadRune]: only after a successful [ReadRune]. *)
Definition UnreadRune (b : t) : option error * t :=
  if Z.leb (lastRead b) opInvalid then (Some errUnreadRune, b)
  else
    (None,
     mk (buf b)
        (if Z.geb (Z.of_nat (off b)) (lastRead b)
         then off b - Z.to_nat (lastRead b) else off b)
        opInvalid).

End BufferRune.

(** ** markdownify *)

Definition escapeByte : byte := "\"%byte.

(** What one turn of the [for] loop does: return the written text, or go
    round again with the updated buffers and locals. *)
Inductive turn :=
| Return (out : bstring)
| Continue (r w : Buffer.t) (last : byte) (inCode : bool).

Definition markdownify_body (r w : Buffer.t) (last : byte) (inCode : bool) : turn :=
  let '(b, err, r) := Buffer.ReadByte r in
  match err with
  | Some _ => Return (Buffer.String w)
  | None =>
    if b =b? "<" then
      let w := if negb (last =b? escapeByte) && negb inCode
               then Buffer.WriteByte w "`" else Buffer.WriteByte w b in
      Continue r w b inCode
    else if b =b? ">" then
      let w := if negb (last =b? escapeByte) && negb inCode
               then Buffer.WriteByte w "`" else Buffer.WriteByte w b in
      Continue r w b inCode
    else if b =b? "'" then
      let '(b1, _, r) := Buffer.ReadByte r in
      let '(b2, _, r) := Buffer.ReadByte r in
      if (b1 =b? b) && (b2 =b? b) then
        let w := Buffer.WriteString w (B "```") in
        let '(r, w) :=
          if negb inCode then
            let '(n, _, err, r) := BufferRune.ReadRune r in
            match err with
            | None =>
              let w := if unicode.IsSpace n
                       then Buffer.WriteString w (B "shell") else w in
              let '(_, r) := BufferRune.UnreadRune r in
              (r, w)
            | Some _ => (r, w)
            end
          else (r, w) in
        Continue r w b (negb inCode)
      else
        let w := Buffer.WriteByte w b in
        let '(_, r) := Buffer.UnreadByte r in
        let '(_, r) := Buffer.UnreadByte r in
        Continue r w b inCode
    else if b =b? "*" then
      if inCode then
        let '(b1, _, r) := Buffer.ReadByte r in
        if negb (b1 =b? "*") then
          let w := Buffer.WriteByte w b in
          let '(_, w) := Buffer.UnreadByte w in
          Continue r w b inCode
        else Continue r w b inCode
      else Continue r (Buffer.WriteByte w b) b inCode
    else if b =b? escapeByte then
      if last =b? escapeByte
      then Continue r (Buffer.WriteByte w escapeByte) x00 inCode
      else Continue r w b inCode
    else Continue r (Buffer.WriteByte w b) b inCode
  end.

(** The [for] loop, bounded by a number of turns; [None] when they run out. *)
Fixpoint markdownify_loop (turns : nat) (r w : Buffer.t) (last : byte) (inCode : bool)
  : option bstring :=
  match turns with
  | O => None
  | S turns' =>
    match markdownify_body r w last inCode with
    | Return out => Some out
    | Continue r' w' last' inCode' => markdownify_loop turns' r' w' last' inCode'
    end
  end.

(** The loop entered with the locals [last] and [inCode], the reader holding
    [input] and a fresh writer.  One turn more than there are bytes to read
    always suffices (see [ScanFacts.markdownify_loop_returns]). *)
Definition markdownifyFrom (last : byte) (inCode : bool) (input : bstring) : bstring :=
  match markdownify_loop (S (length input)) (Buffer.holding input) Buffer.new last inCode with
  | Some out => out
  | None => []
  end.

(** [markdownify(r)]: the loop entered with the zero values of [last] and
    [inCode] and with [w := new(bytes.Buffer)]. *)
Definition markdownify (r : Buffer.t) : bstring :=
  match markdownify_loop (S (Buffer.Len r)) r Buffer.new x00 false with
  | Some out => out
  | None => []
  end.

Arguments markdownifyFrom : simpl never.

(** ** What a turn of the loop does to the unread input

    [turn_effect last inCode rest] describes one turn in terms of the bytes
    still to be read: the bytes written, the new locals and the bytes left,
    or [None] when the reader is at its end.  It is a derived view, related
    to [markdownify_body] by [markdownify_body_effect] below. *)

Definition opensWithSpace (rest : bstring) : bool :=
  match rest with
  | [] => false
  | _ => unicode.IsSpace (fst (utf8.DecodeRune rest))
  end.

Definition bracket (b last : byte) (inCode : bool) : byte :=
  if negb (last =b? escapeByte) && negb inCode then "`"%byte else b.

Definition turn_effect (last : byte) (inCode : bool) (rest : bstring)
  : option (bstring * byte * bool * bstring) :=
  match rest with
  | [] => None
  | b :: t =>
    Some
      (if b =b? "<" then ([bracket b last inCode], b, inCode, t)
       else if b =b? ">" then ([bracket b last inCode], b, inCode, t)
       else if b =b? "'" then
         match t with
         | b1 :: b2 :: t2 =>
           if (b1 =b? b) && (b2 =b? b) then
             (B "```" ++ (if negb inCode && opensWithSpace t2 then B "shell" else []),
              b, negb inCode, t2)
           else ([b], b, inCode, b2 :: t2)
         | _ => ([b], b, inCode, [])
         end
       else if b =b? "*" then
         if inCode then
           match t with
           | b1 :: t1 => if b1 =b? "*" then ([], b, inCode, t1) else ([b], b, inCode, t1)
           | [] => ([b], b, inCode, [])
           end
         else ([b], b, inCode, t)
       else if b =b? escapeByte then
         if last =b? escapeByte then ([escapeByte], x00, inCode, t)
         else ([], b, inCode, t)
       else ([b], b, inCode, t))
  end.

(** ** strings and regexp *)

Module strings.

Fixpoint HasPrefix (s prefix : bstring) : bool :=
  match prefix, s with
  | [], _ => true
  | p :: prefix', c :: s' => (c =b? p) && HasPrefix s' prefix'
  | _ :: _, [] => false
  end.

(** [Index(s, substr)]: the index of the first instance of [substr] in
    [s]; [None] stands for Go's [-1]. *)
Fixpoint Index (s substr : bstring) : option nat :=
  match s with
  | [] => if HasPrefix [] substr then Some 0 else None
  | _ :: s' => if HasPrefix s substr then Some 0 else option_map S (Index s' substr)
  end.

Definition isUpperASCII (c : byte) : bool :=
  (byteZ "A" <=? byteZ c)%Z && (byteZ c <=? byteZ "Z")%Z.

(** [c += 'a' - 'A'] *)
Definition lowerASCII (c : byte) : byte :=
  if isUpperASCII c then
    match Byte.of_N (Byte.to_N c + 32) with Some c' => c' | None => c end
  else c.

Section Lowercase.
(** [Map(unicode.ToLower, s)], taken only when [s] has a byte outside
    ASCII; it rests on the case tables of package [unicode]. *)
Variable Map_unicode_ToLower : bstring -> bstring.

Definition ToLower (s : bstring) : bstring :=
  if forallb (fun c => (byteZ c <? utf8.RuneSelf)%Z) s then
    if existsb isUpperASCII s then map lowerASCII s else s
  else Map_unicode_ToLower s.
End Lowercase.

End strings.

Module regexp.

Definition LF : byte := x0a.

(** [sectionRe = (?m:^##)]: the start of the leftmost match, scanning
    with [bol] telling whether the current position begins a line. *)
Fixpoint sectionRe_find (bol : bool) (s : bstring) : option nat :=
  match s with
  | [] => None
  | c :: s' =>
    if bol && strings.HasPrefix s (B "##") then Some 0
    else option_map S (sectionRe_find (c =b? LF) s')
  end.

(** [sectionRe.FindStringIndex(s)], of which only [loc[0]] is used. *)
Definition sectionRe_FindStringIndex (s : bstring) : option nat :=
  sectionRe_find true s.

(** The line up to, and without, its newline. *)
Fixpoint restOfLine (s : bstring) : bstring :=
  match s with
  | [] => []
  | c :: s' => if c =b? LF then [] else c :: restOfLine s'
  end.

(** [sectionNameRe = (?m:^## [^\n]+)] anchored at a position that begins a
    line: the matched text. *)
Definition sectionNameRe_matchHere (s : bstring) : option bstring :=
  if strings.HasPrefix s (B "## ") then
    match restOfLine (skipn 3 s) with
    | [] => None
    | title => Some (B "## " ++ title)
    end
  else None.

(** [sectionNameRe.ReplaceAllStringFunc(s, repl)]; [skip] counts the bytes
    of a match that are still to be passed over. *)
Fixpoint sectionNameRe_replace (repl : bstring -> bstring) (bol : bool) (skip : nat)
         (s : bstring) : bstring :=
  match s with
  | [] => []
  | c :: s' =>
    match skip with
    | S k => sectionNameRe_replace repl false k s'
    | O =>
      match (if bol then sectionNameRe_matchHere s else None) with
      | Some m => repl m ++ sectionNameRe_replace repl false (length m - 1) s'
      | None => c :: sectionNameRe_replace repl (c =b? LF) 0 s'
      end
    end
  end.

Definition sectionNameRe_ReplaceAllStringFunc (s : bstring) (repl : bstring -> bstring)
  : bstring :=
  sectionNameRe_replace repl true 0 s.

End regexp.

(** ** findSectionEnd and helpPreprocessor *)

Definition findSectionEnd (h s : bstring) : option nat :=
  match strings.Index s (B "## " ++ h) with
  | None => None
  | Some start =>
    match regexp.sectionRe_FindStringIndex (skipn (start + 2) s) with
    | None => Some (length s)
    | Some nextSection => Some (start + 2 + nextSection)
    end
  end.

(** Lines 81-100: move the OPTIONS section. *)
Definition relocateOptions (s : bstring) : bstring :=
  match strings.Index s (B "## OPTIONS") with
  | None => s
  | Some optLoc =>
    match findSectionEnd (B "OPTIONS") s with
    | None => s
    | Some optEnd =>
      let options := slice s optLoc optEnd in
      let s := firstn optLoc s ++ skipn optEnd s in
      match findSectionEnd (B "POSITIONAL ARGUMENTS") s with
      | Some newLoc => firstn newLoc s ++ options ++ skipn newLoc s
      | None =>
        match findSectionEnd (B "Description") s with
        | Some newLoc => firstn newLoc s ++ options ++ skipn newLoc s
        | None =>
          match findSectionEnd (B "USAGE") s with
          | Some newLoc => firstn newLoc s ++ options ++ skipn newLoc s
          | None =>
            match findSectionEnd (B "NAME") s with
            | Some newLoc => firstn newLoc s ++ options ++ skipn newLoc s
            | None => s ++ options
            end
          end
        end
      end
    end
  end.

Section Preprocessor.
Variable Map_unicode_ToLower : bstring -> bstring.

(** Lines 104-106: keep capitalized only the first letter. *)
Definition capitalizeTitles (s : bstring) : bstring :=
  regexp.sectionNameRe_ReplaceAllStringFunc s
    (fun s => slice s 0 4 ++ strings.ToLower Map_unicode_ToLower (skipn 4 s)).

(** [helpPreprocessor]; [rendered] is what [cli.HelpPrinterCustom] wrote
    into [buf]. *)
Definition helpPreprocessor (rendered : bstring) (capOnlyFirst : bool) : bstring :=
  let buf := Buffer.holding rendered in
  let s := markdownify buf in
  let s := relocateOptions s in
  if capOnlyFirst then capitalizeTitles s else s.

End Preprocessor.

(** ** The vocabulary of the specification *)

(** The sections after which OPTIONS may go, in priority order. *)
Definition targets : list bstring :=
  [B "POSITIONAL ARGUMENTS"; B "Description"; B "USAGE"; B "NAME"].

Definition header (h : bstring) : bstring := B "## " ++ h.

(** Position [i] of [s] begins a line, position 0 doing so when [bol]
    holds: the positions at which [^] matches. *)
Definition startsLine (bol : bool) (s : bstring) (i : nat) : Prop :=
  (i = 0 /\ bol = true) \/ (0 < i /\ nth_error s (i - 1) = Some regexp.LF).

(** Position [p] of [s] begins a line that starts with [##]. *)
Definition headerLineAt (s : bstring) (p : nat) : Prop :=
  (p = 0 \/ nth_error s (p - 1) = Some regexp.LF)
  /\ strings.HasPrefix (skipn p s) (B "##") = true.

(** [e] ends the extent of the section whose header text starts at
    [start]: the start of the next header line, or the end of [s]. *)
Definition extentEnd (s : bstring) (start e : nat) : Prop :=
  start < e <= length s
  /\ (e = length s \/ headerLineAt s e)
  /\ forall p, start < p < e -> ~ headerLineAt s p.

Definition sectionExists (s h : bstring) : bool :=
  match strings.Index s (header h) with Some _ => true | None => false end.

(** The first target, in priority order, that exists in [s]. *)
Definition firstExisting (s : bstring) : option bstring :=
  find (sectionExists s) targets.

(** Relocation as the specification words it: the insertion offset is the
    end of the target's extent in the original document, taken before the
    OPTIONS span is cut out. *)
Definition relocateAtOriginalOffsets (s : bstring) : bstring :=
  match strings.Index s (B "## OPTIONS"), findSectionEnd (B "OPTIONS") s with
  | Some optLoc, Some optEnd =>
    let options := slice s optLoc optEnd in
    let cut := firstn optLoc s ++ skipn optEnd s in
    match firstExisting s with
    | Some h =>
      match findSectionEnd h s with
      | Some newLoc => firstn newLoc cut ++ options ++ skipn newLoc cut
      | None => cut ++ options
      end
    | None => cut ++ options
    end
  | _, _ => s
  end.

(** The document made of the lines [ls], a newline between neighbours. *)
Fixpoint joinLines (ls : list bstring) : bstring :=
  match ls with
  | [] => []
  | [l] => l
  | l :: ls' => l ++ regexp.LF :: joinLines ls'
  end.

Definition isLine (l : bstring) : Prop := ~ In regexp.LF l.

(** A line matching the section-header pattern: [## ] and a title. *)
Definition isHeaderLine (l : bstring) : bool :=
  strings.HasPrefix l (B "## ") && (3 <? length l).

Section CapLine.
Variable Map_unicode_ToLower : bstring -> bstring.

(** Capitalization of one line as the code does it, byte by byte: the
    four bytes of [s[0:4]], that is [## ] and the first byte of the title,
    are kept, and the bytes after them go to [strings.ToLower]. *)
Definition capLine (l : bstring) : bstring :=
  match l with
  | h1 :: h2 :: sp :: c :: title' =>
    if isHeaderLine l
    then [h1; h2; sp; c] ++ strings.ToLower Map_unicode_ToLower title'
    else l
  | _ => l
  end.
End CapLine.

(** Bytes the escape transform gives a meaning to. *)
Definition isSpecial (c : byte) : bool :=
  (c =b? "<") || (c =b? ">") || (c =b? "'") || (c =b? "*") || (c =b? escapeByte).

(** Bytes it passes through whatever its state: all but the brackets, the
    quote and the backslash (outside a code block an asterisk is among them). *)
Definition isInert (c : byte) : bool :=
  negb ((c =b? "<") || (c =b? ">") || (c =b? "'") || (c =b? escapeByte)).

(** The documents of the examples, one line per list element. *)
Definition doc (ls : list bstring) : bstring :=
  concat (map (fun l => l ++ [regexp.LF]) ls).

(** ** command/rand: randWithDictionary *)

Module rand.

(** The errors the function can return: of [os.Open], of [scanner.Err]
    and of [rand.Int]. *)
Inductive error := errOpen | errScan | errRand.

(** What a call does: it returns, having written [stdout], with or without
    an error; or it panics. *)
Inductive outcome :=
| Returns (stdout : bstring) (err : option error)
| Panics.

(** The dictionary file as the function meets it: the tokens that
    [scanner.Scan] yields, and whether [scanner.Err()] is an error. *)
Record file := mkFile { tokens : list bstring; scanErr : bool }.

(** [ws] with [sep] between neighbours: what the loop builds. *)
Fixpoint joinWith (sep : bstring) (ws : list bstring) : bstring :=
  match ws with
  | [] => []
  | [w] => w
  | w :: ws' => w ++ sep ++ joinWith sep ws'
  end.

Section Dictionary.
(** [strings.TrimSpace]. *)
Variable TrimSpace : bstring -> bstring.
(** [draw i]: what the call number [i] of [rand.Int(rand.Reader, max)]
    gives when [max] is positive: an error, or a number. *)
Variable draw : nat -> option nat.

(** The [for] loop, with [todo] turns to go:
    [for i := 0; i < length; i++].  [rand.Int] panics when its bound is
    not positive, and an index outside [words] panics. *)
Fixpoint randWithDictionary_loop (words : list bstring) (todo : nat) (i len : Z)
         (s : bstring) : outcome :=
  match todo with
  | O => Returns (s ++ [regexp.LF]) None
  | S todo' =>
    if (Z.of_nat (length words) <=? 0)%Z then Panics
    else
      match draw (Z.to_nat i) with
      | None => Returns [] (Some errRand)
      | Some bn =>
        match nth_error words bn with
        | None => Panics
        | Some w =>
          let s := s ++ w in
          let s := if negb (i =? len - 1)%Z then s ++ B "-" else s in
          randWithDictionary_loop words todo' (i + 1)%Z len s
        end
      end
  end.

(** [randWithDictionary(dictionary, length)]; [f] is [None] when
    [os.Open] fails. *)
Definition randWithDictionary (f : option file) (len : Z) : outcome :=
  match f with
  | None => Returns [] (Some errOpen)
  | Some f =>
    let words := map TrimSpace (tokens f) in
    if scanErr f then Returns [] (Some errScan)
    else randWithDictionary_loop words (Z.to_nat len) 0 len []
  end.

End Dictionary.

End rand.

(** ** Vocabulary of the further properties *)

(** What the transform does to a byte outside a code block when nothing
    escapes it. *)
Definition backtickBracket (c : byte) : byte :=
  if (c =b? "<") || (c =b? ">") then "`"%byte else c.

(** Neither a quote nor a backslash. *)
Definition isUnquoted (c : byte) : bool :=
  negb ((c =b? "'") || (c =b? escapeByte)).

(** Neither a quote, nor an asterisk, nor a backslash: the bytes that a
    code block copies. *)
Definition isCodePlain (c : byte) : bool :=
  negb ((c =b? "'") || (c =b? "*") || (c =b? escapeByte)).

(** The bytes the transform writes of its own. *)
Definition ownBytes : bstring := B "`shell".

Definition isASCII (s : bstring) : bool :=
  forallb (fun c => (byteZ c <? utf8.RuneSelf)%Z) s.

(** ** Occurrences of a text, and header lines *)

(** [sub] occurs in [s] at offset [i]. *)
Definition occursAt (s sub : bstring) (i : nat) : Prop :=
  exists t, skipn i s = sub ++ t.

(** [i] is the offset of the first occurrence of [sub] in [s]. *)
Definition firstOccurrence (s sub : bstring) (i : nat) : Prop :=
  occursAt s sub i /\ forall j, j < i -> ~ occursAt s sub j.

(** [sub] occurs nowhere in [s]. *)
Definition absent (s sub : bstring) : Prop :=
  forall i, ~ occursAt s sub i.

(** Position [p] of [s] begins a line headed [## h]: a section headed
    [h], as the data model of the specification has it. *)
Definition sectionLineAt (s h : bstring) (p : nat) : Prop :=
  headerLineAt s p /\ occursAt s (header h) p.

(** ** unicode/utf8: encoding *)

Module utf8enc.
Local Open Scope Z_scope.

Definition rune1Max : Z := 0x7F.
Definition rune2Max : Z := 0x7FF.
Definition rune3Max : Z := 0xFFFF.
Definition MaxRune : Z := 0x10FFFF.
Definition surrogateMin : Z := 0xD800.
Definition surrogateMax : Z := 0xDFFF.

Definition tx : Z := 0x80.
Definition t2 : Z := 0xC0.
Definition t3 : Z := 0xE0.
Definition t4 : Z := 0xF0.

(** The conversion [byte(x)]: the low eight bits. *)
Definition toByte (x : Z) : byte :=
  match Byte.of_N (Z.to_N (Z.land x 0xFF)) with
  | Some b => b
  | None => x00
  end.

(** [utf8.RuneLen]. *)
Definition RuneLen (r : Z) : Z :=
  if r <? 0 then -1
  else if r <=? rune1Max then 1
  else if r <=? rune2Max then 2
  else if (surrogateMin <=? r) && (r <=? surrogateMax) then -1
  else if r <=? rune3Max then 3
  else if r <=? MaxRune then 4
  else -1.

(** The three-byte case of [appendRuneNonASCII]. *)
Definition encode3 (r : Z) : bstring :=
  [toByte (Z.lor t3 (Z.shiftr r 12));
   toByte (Z.lor tx (Z.land (Z.shiftr r 6) utf8.maskx));
   toByte (Z.lor tx (Z.land r utf8.maskx))].

(** [utf8.AppendRune(nil, r)], with [appendRuneNonASCII] inlined; [i] is
    [uint32(r)]. *)
Definition AppendRune (r : Z) : bstring :=
  let i := r mod 2 ^ 32 in
  if i <=? rune1Max then [toByte r]
  else if i <=? rune2Max then
    [toByte (Z.lor t2 (Z.shiftr r 6)); toByte (Z.lor tx (Z.land r utf8.maskx))]
  else if (MaxRune <? i) || ((surrogateMin <=? i) && (i <=? surrogateMax)) then
    encode3 utf8.RuneError
  else if i <=? rune3Max then encode3 r
  else
    [toByte (Z.lor t4 (Z.shiftr r 18));
     toByte (Z.lor tx (Z.land (Z.shiftr r 12) utf8.maskx));
     toByte (Z.lor tx (Z.land (Z.shiftr r 6) utf8.maskx));
     toByte (Z.lor tx (Z.land r utf8.maskx))].

End utf8enc.

(** ** unicode: case mapping *)

Module unicodeCase.
Local Open Scope Z_scope.

Definition MaxASCII : Z := 0x7F.

Section Tables.
(** [To(LowerCase, r)] on the tables [CaseRanges]. *)
Variable caseTable : Z -> Z.

(** [unicode.ToLower]. *)
Definition ToLower (r : Z) : Z :=
  if r <=? MaxASCII then
    if (byteZ "A" <=? r) && (r <=? byteZ "Z") then r + (byteZ "a" - byteZ "A") else r
  else caseTable r.

End Tables.
End unicodeCase.

(** ** strings.Map *)

Module stringsMap.
Local Open Scope Z_scope.

Section Map.
Variable mapping : Z -> Z.

(** The first loop, at offset [i] of [s]: it looks for the first rune that
    the mapping changes, or that is not valid, and gives the builder and
    the rest of [s] at that point; [None] when it reaches the end.  A
    [range] over a string decodes as [utf8.DecodeRune] does. *)
Fixpoint firstChange (fuel : nat) (s : bstring) (i : nat) : option (bstring * bstring) :=
  match fuel with
  | O => None
  | S fuel' =>
    match skipn i s with
    | [] => None
    | rest =>
      let (c, w) := utf8.DecodeRune rest in
      let r := mapping c in
      if (r =? c) && negb (c =? utf8.RuneError) then firstChange fuel' s (i + w)%nat
      else
        let width :=
          if c =? utf8.RuneError then Z.of_nat (snd (utf8.DecodeRune rest))
          else utf8enc.RuneLen c in
        if (c =? utf8.RuneError) && negb (width =? 1) && (r =? c)
        then firstChange fuel' s (i + w)%nat
        else
          Some (firstn i s ++ (if r >=? 0 then utf8enc.AppendRune r else []),
                skipn (Z.to_nat (Z.of_nat i + width)) s)
    end
  end.

(** The second loop: every rune is mapped and written, unless the mapping
    gives a negative number. *)
Fixpoint writeMapped (fuel : nat) (s : bstring) : bstring :=
  match fuel with
  | O => []
  | S fuel' =>
    match s with
    | [] => []
    | _ =>
      let (c, w) := utf8.DecodeRune s in
      let r := mapping c in
      (if r >=? 0
       then if r <? utf8.RuneSelf then [utf8enc.toByte r] else utf8enc.AppendRune r
       else [])
      ++ writeMapped fuel' (skipn w s)
    end
  end.

(** [strings.Map(mapping, s)]. *)
Definition Map (s : bstring) : bstring :=
  match firstChange (length s) s 0 with
  | None => s
  | Some (b, rest) => b ++ writeMapped (length rest) rest
  end.

End Map.
End stringsMap.

(** [strings.ToLower] with its Unicode branch spelled out:
    [Map(unicode.ToLower, s)], the case tables apart. *)
Definition lowerUnicode (caseTable : Z -> Z) : bstring -> bstring :=
  stringsMap.Map (unicodeCase.ToLower caseTable).

(** A header line whose title begins with a character of two bytes: the
    word ECOLE with an acute accent on its first letter, U+00C9, which UTF-8
    writes [C3 89]. *)
Definition ecole : bstring := B "## " ++ xc3 :: x89 :: B "COLE".

(** * Properties *)

(** ** Bytes and lists *)

Lemma byte_eqb_spec (a b : byte) : reflect (a = b) (a =b? b).
Proof.
  destruct (a =b? b) eqn:E; constructor.
  - now apply Byte.byte_dec_bl.
  - now apply Byte.eqb_false.
Qed.

Lemma byte_eqb_refl (a : byte) : (a =b? a) = true.
Proof. now apply Byte.byte_dec_lb. Qed.

Lemma byte_eqb_neq (a b : byte) : a <> b -> (a =b? b) = false.
Proof. intros H. now destruct (byte_eqb_spec a b). Qed.

Lemma skipn_nil_inv {A} (l : list A) (o : nat) :
  skipn o l = [] -> (length l <=? o) = true.
Proof.
  revert l; induction o as [|o IH]; intros [|x l]; simpl; try easy.
  intros H. now apply IH.
Qed.

Lemma skipn_cons_inv (l : bstring) (o : nat) (c : byte) (t : bstring) :
  skipn o l = c :: t ->
  (length l <=? o) = false /\ nth o l x00 = c /\ skipn (S o) l = t.
Proof.
  revert l; induction o as [|o IH]; intros [|x l]; simpl; try easy.
  - intros [= -> ->]. auto.
  - intros H. now apply IH.
Qed.

Lemma skipn_length_lt {A} (l : list A) (o : nat) (c : A) (t : list A) :
  skipn o l = c :: t -> o < length l.
Proof.
  intros H. destruct (Nat.lt_ge_cases o (length l)) as [|Hge]; [easy|].
  apply skipn_all2 in Hge. congruence.
Qed.

(** ** bytes.Buffer *)

Module BufferFacts.
Import Buffer BufferRune.

Lemma wf_new : wf new.
Proof. unfold wf; simpl; lia. Qed.

Lemma wf_holding s : wf (holding s).
Proof. unfold wf; simpl; lia. Qed.

Lemma Len_String b : Len b = length (String b).
Proof. unfold Len, String. now rewrite length_skipn. Qed.

Lemma String_holding s : String (holding s) = s.
Proof. reflexivity. Qed.

Lemma String_WriteString b s : wf b -> String (WriteString b s) = String b ++ s.
Proof. unfold wf, String; simpl; intros H. now rewrite skipn_app, (proj2 (Nat.sub_0_le _ _) H). Qed.

Lemma String_WriteByte b c : wf b -> String (WriteByte b c) = String b ++ [c].
Proof. apply String_WriteString. Qed.

Lemma wf_WriteString b s : wf b -> wf (WriteString b s).
Proof. unfold wf; simpl; rewrite length_app; lia. Qed.

Lemma wf_WriteByte b c : wf b -> wf (WriteByte b c).
Proof. apply wf_WriteString. Qed.

(** Unreading straight after a write fails and changes nothing. *)
Lemma UnreadByte_after_write b c :
  UnreadByte (WriteByte b c) = (Some errUnreadByte, WriteByte b c).
Proof. reflexivity. Qed.

Lemma ReadByte_String b :
  ReadByte b =
  match String b with
  | [] => (x00, Some EOF, Reset b)
  | c :: _ => (c, None, mk (buf b) (S (off b)) opRead)
  end.
Proof.
  unfold ReadByte, empty, String. destruct (skipn (off b) (buf b)) eqn:E.
  - now rewrite (skipn_nil_inv _ _ E).
  - apply skipn_cons_inv in E as (-> & -> & _). reflexivity.
Qed.

Lemma String_advance b c rest lr :
  String b = c :: rest -> String (mk (buf b) (S (off b)) lr) = rest.
Proof. unfold String; simpl. intros E. now apply skipn_cons_inv in E. Qed.

Lemma String_Reset b : String (Reset b) = [].
Proof. reflexivity. Qed.

(** A second [UnreadByte] in a row fails: only one byte can be unread. *)
Lemma UnreadByte_twice bf o :
  UnreadByte (snd (UnreadByte (mk bf (S o) opRead))) = (Some errUnreadByte, mk bf o opInvalid).
Proof. unfold UnreadByte; simpl. now rewrite Nat.sub_0_r. Qed.

End BufferFacts.

(** ** Runes *)

Module RuneFacts.
Import Buffer BufferRune BufferFacts.

Ltac split_ifs :=
  repeat match goal with
         | |- context [if ?c then _ else _] => destruct c eqn:?
         end.

Ltac decode_leaf :=
  cbn -[length nth]; split_ifs; cbn -[length] in *;
  repeat match goal with
         | H : (_ <? _)%Z = false |- _ => apply Z.ltb_ge in H
         end;
  change (length (?c :: ?l)) with (S (length l)) in *; lia.

Lemma byteZ_range c : (0 <= byteZ c < 256)%Z.
Proof. unfold byteZ. pose proof (Byte.to_N_bounded c). lia. Qed.

(** On input that is not empty [DecodeRune] takes one to four bytes, and
    no more than there are. *)
Lemma DecodeRune_size p :
  p <> [] -> 1 <= snd (utf8.DecodeRune p) <= 4 /\ snd (utf8.DecodeRune p) <= length p.
Proof.
  destruct p as [|c0 p1]; [easy|intros _].
  unfold utf8.DecodeRune, utf8.first.
  destruct (byteZ c0 <? 128)%Z; [simpl; lia|].
  destruct (byteZ c0 <? 194)%Z; [simpl; lia|].
  destruct (byteZ c0 <? 224)%Z; [decode_leaf|].
  destruct (byteZ c0 =? 224)%Z; [decode_leaf|].
  destruct (byteZ c0 <? 237)%Z; [decode_leaf|].
  destruct (byteZ c0 =? 237)%Z; [decode_leaf|].
  destruct (byteZ c0 <? 240)%Z; [decode_leaf|].
  destruct (byteZ c0 =? 240)%Z; [decode_leaf|].
  destruct (byteZ c0 <? 244)%Z; [decode_leaf|].
  destruct (byteZ c0 =? 244)%Z; [decode_leaf|].
  simpl; lia.
Qed.

Lemma DecodeRune_ascii c t :
  (byteZ c < utf8.RuneSelf)%Z -> utf8.DecodeRune (c :: t) = (byteZ c, 1).
Proof.
  intros H. unfold utf8.DecodeRune, utf8.first.
  apply Z.ltb_lt in H. unfold utf8.RuneSelf in H. now rewrite H.
Qed.

Ltac high_leaf :=
  cbn; split_ifs; cbn [snd firstn];
  repeat match goal with
         | H : _ || _ = false |- _ => apply orb_false_elim in H as [? ?]
         | H : (_ <? _)%Z = false |- _ => apply Z.ltb_ge in H
         end;
  unfold utf8.locb, utf8.hicb in *;
  repeat constructor; try lia; try discriminate.

(** A rune that starts with a byte outside ASCII is made of such bytes. *)
Lemma DecodeRune_high c0 p1 :
  (128 <= byteZ c0)%Z ->
  Forall (fun c => (128 <= byteZ c)%Z)
         (firstn (snd (utf8.DecodeRune (c0 :: p1))) (c0 :: p1)).
Proof.
  intros Hc. unfold utf8.DecodeRune, utf8.first.
  destruct (byteZ c0 <? 128)%Z; [now repeat constructor|].
  destruct (byteZ c0 <? 194)%Z; [now repeat constructor|].
  destruct p1 as [|x [|y [|z p4]]].
  all: destruct (byteZ c0 <? 224)%Z; [high_leaf|].
  all: destruct (byteZ c0 =? 224)%Z; [high_leaf|].
  all: destruct (byteZ c0 <? 237)%Z; [high_leaf|].
  all: destruct (byteZ c0 =? 237)%Z; [high_leaf|].
  all: destruct (byteZ c0 <? 240)%Z; [high_leaf|].
  all: destruct (byteZ c0 =? 240)%Z; [high_leaf|].
  all: destruct (byteZ c0 <? 244)%Z; [high_leaf|].
  all: destruct (byteZ c0 =? 244)%Z; [high_leaf|].
  all: cbn; now repeat constructor.
Qed.

(** [ReadRune] followed by [UnreadRune] looks at the next rune and leaves
    the contents as they were. *)
Lemma ReadRune_peek b c t :
  String b = c :: t ->
  exists sz b',
    ReadRune b = (fst (utf8.DecodeRune (c :: t)), sz, None, b')
    /\ String (snd (UnreadRune b')) = c :: t.
Proof.
  intros E. unfold ReadRune, empty.
  pose proof E as E'. unfold String in E'.
  apply skipn_cons_inv in E' as (-> & -> & E').
  destruct (byteZ c <? utf8.RuneSelf)%Z eqn:Hc.
  - apply Z.ltb_lt in Hc. rewrite (DecodeRune_ascii _ _ Hc). simpl.
    do 2 eexists; split; [reflexivity|].
    unfold UnreadRune; cbn [lastRead off buf snd].
    change (opReadRune1 <=? opInvalid)%Z with false; cbn iota.
    replace (Z.of_nat (S (off b)) >=? opReadRune1)%Z with true
      by (symmetry; apply Z.geb_le; unfold opReadRune1; lia).
    change (Z.to_nat opReadRune1) with 1.
    unfold String in *; cbn [snd off buf].
    now replace (S (off b) - 1) with (off b) by lia.
  - fold (String b). rewrite E.
    destruct (DecodeRune_size (c :: t)) as [Hsz _]; [easy|].
    destruct (utf8.DecodeRune (c :: t)) as [r n]; simpl in *.
    do 2 eexists; split; [reflexivity|].
    unfold UnreadRune; cbn [lastRead off buf snd].
    replace (Z.of_nat n <=? opInvalid)%Z with false
      by (symmetry; apply Z.leb_gt; unfold opInvalid; lia).
    replace (Z.of_nat (off b + n) >=? Z.of_nat n)%Z with true
      by (symmetry; apply Z.geb_le; lia).
    unfold String in *; cbn [snd off buf]. rewrite Nat2Z.id.
    now replace (off b + n - n) with (off b) by lia.
Qed.

End RuneFacts.

(** ** The loop and its view on the unread input *)

Module ScanFacts.
Import Buffer BufferRune BufferFacts RuneFacts.

Lemma UnreadByte_read bf o : UnreadByte (mk bf (S o) opRead) = (None, mk bf o opInvalid).
Proof. unfold UnreadByte; simpl. now rewrite Nat.sub_0_r. Qed.

Lemma UnreadByte_invalid bf o :
  UnreadByte (mk bf o opInvalid) = (Some errUnreadByte, mk bf o opInvalid).
Proof. reflexivity. Qed.

Lemma ReadRune_end b : String b = [] -> ReadRune b = (0%Z, 0, Some EOF, Reset b).
Proof.
  unfold String, ReadRune, empty. intros E. now rewrite (skipn_nil_inv _ _ E).
Qed.

Lemma String_bracket w b last inCode :
  wf w ->
  String (if negb (last =b? escapeByte) && negb inCode
          then WriteByte w "`" else WriteByte w b)
  = String w ++ [bracket b last inCode]
  /\ wf (if negb (last =b? escapeByte) && negb inCode
         then WriteByte w "`" else WriteByte w b).
Proof.
  intros Hw. unfold bracket.
  destruct (negb (last =b? escapeByte) && negb inCode);
    auto using String_WriteByte, wf_WriteByte.
Qed.

(** One turn of the loop reads the reader's contents the way
    [turn_effect] says, and appends to the writer's. *)
Lemma markdownify_body_effect r w last inCode :
  wf w ->
  match turn_effect last inCode (String r) with
  | None => markdownify_body r w last inCode = Return (String w)
  | Some (out, last', inCode', rest') =>
    exists r' w',
      markdownify_body r w last inCode = Continue r' w' last' inCode'
      /\ String r' = rest' /\ String w' = String w ++ out /\ wf w'
  end.
Proof.
  intros Hw. unfold markdownify_body. rewrite ReadByte_String.
  destruct (String r) as [|b t] eqn:E; [reflexivity|].
  pose proof (String_advance r b t opRead E) as E1.
  set (r1 := mk (buf r) (S (off r)) opRead) in *.
  cbn [turn_effect].
  destruct (b =b? "<") eqn:Hlt.
  { destruct (String_bracket w b last inCode Hw) as [Hs Hwf]. eauto 6. }
  destruct (b =b? ">") eqn:Hgt.
  { destruct (String_bracket w b last inCode Hw) as [Hs Hwf]. eauto 6. }
  destruct (byte_eqb_spec b "'") as [->|Hq].
  { rewrite (ReadByte_String r1), E1.
    destruct t as [|b1 t1].
    { exists (Reset (Reset r1)), (WriteByte w "'").
      repeat split; auto using String_WriteByte, wf_WriteByte. }
    pose proof (String_advance r1 b1 t1 opRead E1) as E2.
    set (r2 := mk (buf r1) (S (off r1)) opRead) in *.
    rewrite (ReadByte_String r2), E2.
    destruct t1 as [|b2 t2].
    { rewrite andb_false_r.
      exists (Reset r2), (WriteByte w "'").
      repeat split; auto using String_WriteByte, wf_WriteByte. }
    pose proof (String_advance r2 b2 t2 opRead E2) as E3.
    set (r3 := mk (buf r2) (S (off r2)) opRead) in *.
    destruct ((b1 =b? "'") && (b2 =b? "'")) eqn:Htriple.
    - pose proof (wf_WriteString w (B "```") Hw) as Hw3.
      pose proof (String_WriteString w (B "```") Hw) as Hs3.
      destruct inCode; cbn [negb andb].
      + exists r3, (WriteString w (B "```")). rewrite app_nil_r. auto.
      + destruct t2 as [|c t3].
        * rewrite (ReadRune_end r3 E3). cbn [opensWithSpace].
          exists (Reset r3), (WriteString w (B "```")). rewrite app_nil_r. auto.
        * destruct (ReadRune_peek r3 c t3 E3) as (sz & r4 & -> & E4).
          cbn [opensWithSpace].
          destruct (UnreadRune r4) as [e r5] eqn:Hun. cbn [snd] in E4.
          destruct (unicode.IsSpace (fst (utf8.DecodeRune (c :: t3)))).
          -- exists r5, (WriteString (WriteString w (B "```")) (B "shell")).
             repeat split; auto using wf_WriteString.
             rewrite String_WriteString, Hs3 by assumption. now rewrite app_assoc.
          -- exists r5, (WriteString w (B "```")). rewrite app_nil_r. auto.
    - unfold r3, r2. cbn [buf off]. rewrite UnreadByte_read, UnreadByte_invalid.
      exists (mk (buf r1) (S (off r1)) opInvalid), (WriteByte w "'").
      repeat split; auto using String_WriteByte, wf_WriteByte. }
  destruct (b =b? "*") eqn:Hstar.
  { destruct inCode.
    - rewrite (ReadByte_String r1), E1. destruct t as [|b1 t1].
      + exists (Reset r1), (WriteByte w b).
        repeat split; auto using String_WriteByte, wf_WriteByte.
      + pose proof (String_advance r1 b1 t1 opRead E1) as E2.
        destruct (b1 =b? "*"); cbn [negb].
        * eexists _, w. rewrite app_nil_r. eauto.
        * rewrite UnreadByte_after_write.
          eexists _, (WriteByte w b).
          repeat split; eauto using String_WriteByte, wf_WriteByte.
    - exists r1, (WriteByte w b).
      repeat split; auto using String_WriteByte, wf_WriteByte. }
  destruct (b =b? escapeByte) eqn:Hesc.
  { destruct (last =b? escapeByte).
    - exists r1, (WriteByte w escapeByte).
      repeat split; auto using String_WriteByte, wf_WriteByte.
    - exists r1, w. rewrite app_nil_r. auto. }
  exists r1, (WriteByte w b).
  repeat split; auto using String_WriteByte, wf_WriteByte.
Qed.

Lemma turn_effect_shorter last inCode rest out last' inCode' rest' :
  turn_effect last inCode rest = Some (out, last', inCode', rest') ->
  length rest' < length rest.
Proof.
  destruct rest as [|b t]; [easy|]. cbn [turn_effect].
  intros [= H]. revert H.
  repeat match goal with
         | |- context [if ?c then _ else _] => destruct c
         | |- context [match ?l with [] => _ | _ :: _ => _ end] => destruct l
         end;
    intros [= <- <- <- <-]; simpl; lia.
Qed.

(** With more turns than bytes to read the loop returns, and what it
    returns depends on the reader only through its contents and on the
    writer only as a prefix. *)
Lemma markdownify_loop_contents n :
  forall m r w r0 w0 last inCode,
    wf w -> wf w0 -> String r = String r0 ->
    length (String r) < n -> length (String r) < m ->
    exists out,
      markdownify_loop n r w last inCode = Some (String w ++ out)
      /\ markdownify_loop m r0 w0 last inCode = Some (String w0 ++ out).
Proof.
  induction n as [|n IH]; intros m r w r0 w0 last inCode Hw Hw0 Er Hn Hm; [lia|].
  destruct m as [|m]; [lia|]. cbn [markdownify_loop].
  pose proof (markdownify_body_effect r w last inCode Hw) as H.
  pose proof (markdownify_body_effect r0 w0 last inCode Hw0) as H0.
  rewrite <- Er in H0.
  destruct (turn_effect last inCode (String r)) as [[[[o l'] c'] rest']|] eqn:Et.
  - destruct H as (r' & w' & -> & Hr' & Hs' & Hw').
    destruct H0 as (r0' & w0' & -> & Hr0' & Hs0' & Hw0').
    apply turn_effect_shorter in Et.
    destruct (IH m r' w' r0' w0' l' c') as (out & -> & ->);
      try assumption; try congruence; try (rewrite Hr'; lia).
    exists (o ++ out). rewrite Hs', Hs0', <- !app_assoc. auto.
  - rewrite H, H0. exists []. now rewrite !app_nil_r.
Qed.

Lemma markdownify_loop_from n r w last inCode :
  wf w -> length (String r) < n ->
  markdownify_loop n r w last inCode
  = Some (String w ++ markdownifyFrom last inCode (String r)).
Proof.
  intros Hw Hn. unfold markdownifyFrom.
  destruct (markdownify_loop_contents n (S (length (String r))) r w
              (holding (String r)) new last inCode) as (out & -> & ->);
    auto using wf_new.
Qed.

(** Enough turns: the loop returns on every input. *)
Lemma markdownify_loop_returns last inCode input :
  markdownify_loop (S (length input)) (holding input) new last inCode
  = Some (markdownifyFrom last inCode input).
Proof.
  rewrite markdownify_loop_from; auto using wf_new.
Qed.

(** [markdownify] returns, and what it returns is the output of the loop
    on the contents of its reader. *)
Lemma markdownify_returns r :
  markdownify_loop (S (Len r)) r new x00 false = Some (markdownify r)
  /\ markdownify r = markdownifyFrom x00 false (String r).
Proof.
  unfold markdownify.
  rewrite markdownify_loop_from by (auto using wf_new; rewrite <- Len_String; lia).
  split; reflexivity.
Qed.

Lemma markdownify_contents r :
  markdownify r = markdownifyFrom x00 false (String r).
Proof. apply markdownify_returns. Qed.

(** The output, turn by turn. *)
Lemma markdownifyFrom_turn last inCode rest :
  markdownifyFrom last inCode rest =
  match turn_effect last inCode rest with
  | None => []
  | Some (out, last', inCode', rest') => out ++ markdownifyFrom last' inCode' rest'
  end.
Proof.
  unfold markdownifyFrom at 1. cbn [markdownify_loop].
  pose proof (markdownify_body_effect (holding rest) new last inCode wf_new) as H.
  rewrite String_holding in H.
  destruct (turn_effect last inCode rest) as [[[[o l'] c'] rest']|] eqn:Et.
  - destruct H as (r' & w' & -> & Hr' & Hs' & Hw').
    apply turn_effect_shorter in Et.
    rewrite markdownify_loop_from, Hs', Hr'; auto. rewrite Hr'; lia.
  - now rewrite H.
Qed.

End ScanFacts.

(** ** Laws of the scanner *)

Module ScanLaws.
Import ScanFacts.

Lemma at_end last inCode : markdownifyFrom last inCode [] = [].
Proof. now rewrite markdownifyFrom_turn. Qed.

Lemma on_lt last inCode rest :
  markdownifyFrom last inCode ("<"%byte :: rest)
  = bracket "<" last inCode :: markdownifyFrom "<" inCode rest.
Proof. now rewrite markdownifyFrom_turn. Qed.

Lemma on_gt last inCode rest :
  markdownifyFrom last inCode (">"%byte :: rest)
  = bracket ">" last inCode :: markdownifyFrom ">" inCode rest.
Proof. now rewrite markdownifyFrom_turn. Qed.

Lemma on_backslash last inCode rest :
  markdownifyFrom last inCode (escapeByte :: rest)
  = if last =b? escapeByte
    then escapeByte :: markdownifyFrom x00 inCode rest
    else markdownifyFrom escapeByte inCode rest.
Proof.
  rewrite markdownifyFrom_turn. cbn. now destruct (last =b? escapeByte).
Qed.

Lemma on_fence last inCode rest :
  markdownifyFrom last inCode (B "'''" ++ rest)
  = B "```" ++ (if negb inCode && opensWithSpace rest then B "shell" else [])
    ++ markdownifyFrom "'" (negb inCode) rest.
Proof.
  rewrite markdownifyFrom_turn. cbn -[opensWithSpace].
  now destruct (negb inCode && opensWithSpace rest).
Qed.

(** A quote that opens no fence: the byte after it is gone. *)
Lemma on_lone_quote last inCode b1 b2 rest :
  (b1 =b? "'") && (b2 =b? "'") = false ->
  markdownifyFrom last inCode ("'"%byte :: b1 :: b2 :: rest)
  = "'"%byte :: markdownifyFrom "'" inCode (b2 :: rest).
Proof. intros H. rewrite markdownifyFrom_turn. cbn. now rewrite H. Qed.

Lemma on_star_outside last rest :
  markdownifyFrom last false ("*"%byte :: rest)
  = "*"%byte :: markdownifyFrom "*" false rest.
Proof. now rewrite markdownifyFrom_turn. Qed.

Lemma on_star_inside last b1 rest :
  markdownifyFrom last true ("*"%byte :: b1 :: rest)
  = (if b1 =b? "*" then [] else ["*"%byte]) ++ markdownifyFrom "*" true rest.
Proof.
  rewrite markdownifyFrom_turn. cbn. now destruct (b1 =b? "*").
Qed.

Lemma isSpecial_false b :
  isSpecial b = false ->
  (b =b? "<") = false /\ (b =b? ">") = false /\ (b =b? "'") = false
  /\ (b =b? "*") = false /\ (b =b? escapeByte) = false.
Proof.
  unfold isSpecial. intros H.
  repeat (apply orb_false_elim in H as [H ?]). auto.
Qed.

Lemma on_plain last inCode b rest :
  isSpecial b = false ->
  markdownifyFrom last inCode (b :: rest) = b :: markdownifyFrom b inCode rest.
Proof.
  intros (H1 & H2 & H3 & H4 & H5)%isSpecial_false.
  rewrite markdownifyFrom_turn. cbn [turn_effect].
  now rewrite H1, H2, H3, H4, H5.
Qed.

Lemma last_cons {A} (l : list A) : forall x d, List.last (x :: l) d = List.last l x.
Proof.
  induction l as [|y l IH]; intros x d; [reflexivity|].
  change (List.last (x :: y :: l) d) with (List.last (y :: l) d).
  now rewrite !IH.
Qed.

Lemma on_plain_run pre : forall last inCode rest,
  Forall (fun b => isSpecial b = false) pre ->
  markdownifyFrom last inCode (pre ++ rest)
  = pre ++ markdownifyFrom (List.last pre last) inCode rest.
Proof.
  induction pre as [|b pre IH]; intros last inCode rest Hall; [reflexivity|].
  inversion Hall as [|? ? Hb Hpre]; subst.
  cbn [app]. rewrite on_plain by assumption. rewrite IH by auto.
  now rewrite last_cons.
Qed.

Lemma high_not_special b : (128 <= byteZ b)%Z -> isSpecial b = false.
Proof.
  intros H. destruct (isSpecial b) eqn:E; [exfalso|reflexivity].
  unfold isSpecial in E.
  repeat (apply orb_true_iff in E as [E|E]);
    apply Byte.byte_dec_bl in E; subst b; vm_compute in H; now apply H.
Qed.

Lemma space_not_special b : unicode.IsSpace (byteZ b) = true -> isSpecial b = false.
Proof.
  intros H. destruct (isSpecial b) eqn:E; [exfalso|reflexivity].
  unfold isSpecial in E.
  repeat (apply orb_true_iff in E as [E|E]);
    apply Byte.byte_dec_bl in E; subst b; vm_compute in H; discriminate.
Qed.

(** The bytes of a white-space rune mean nothing to the scanner. *)
Lemma space_is_plain rest :
  opensWithSpace rest = true ->
  Forall (fun b => isSpecial b = false) (firstn (snd (utf8.DecodeRune rest)) rest).
Proof.
  destruct rest as [|c t]; [discriminate|]. unfold opensWithSpace.
  destruct (Z.ltb_spec (byteZ c) utf8.RuneSelf) as [Hc|Hc].
  - rewrite RuneFacts.DecodeRune_ascii by assumption. cbn [fst snd firstn].
    intros Hs. repeat constructor. now apply space_not_special.
  - intros _. eapply Forall_impl; [|apply RuneFacts.DecodeRune_high; exact Hc].
    intros b Hb. now apply high_not_special.
Qed.

End ScanLaws.

(** * The escape transform *)



(** C10: once the second backslash of a pair has been written the lookback
    is cleared, and a bracket that follows is unescaped: outside a code
    block it becomes a backtick. *)
Theorem collapsed_pair_clears_lookback (inCode : bool) (rest : bstring) :
  markdownifyFrom escapeByte inCode (escapeByte :: "<"%byte :: rest)
  = escapeByte :: (if inCode then "<"%byte else "`"%byte)
      :: markdownifyFrom "<" inCode rest
  /\ markdownifyFrom escapeByte inCode (escapeByte :: ">"%byte :: rest)
     = escapeByte :: (if inCode then ">"%byte else "`"%byte)
         :: markdownifyFrom ">" inCode rest
  /\ markdownifyFrom x00 false (B "\\<" ++ rest)
     = B "\`" ++ markdownifyFrom "<" false rest
  /\ markdownify (Buffer.holding (B "\\<")) = B "\`".
Proof.
  repeat apply conj.
  - rewrite ScanLaws.on_backslash, byte_eqb_refl, ScanLaws.on_lt.
    unfold bracket. now destruct inCode.
  - rewrite ScanLaws.on_backslash, byte_eqb_refl, ScanLaws.on_gt.
    unfold bracket. now destruct inCode.
  - change (B "\\<" ++ rest) with (escapeByte :: escapeByte :: "<"%byte :: rest).
    now rewrite !ScanLaws.on_backslash, ScanLaws.on_lt.
  - vm_compute; reflexivity.
Qed.

(** X16: three quotes read by the loop are replaced by three backticks and
    flip [inCode]; on the way into a code block [shell] follows the
    backticks when the next rune is white space, and that rune is still
    to be read: its bytes come out right after. *)
Theorem fence_toggles_code_block :
  (forall last inCode rest,
      markdownifyFrom last inCode (B "'''" ++ rest)
      = B "```" ++ (if negb inCode && opensWithSpace rest then B "shell" else [])
        ++ markdownifyFrom "'" (negb inCode) rest)
  /\ (forall rest,
        opensWithSpace rest = true ->
        let n := snd (utf8.DecodeRune rest) in
        1 <= n <= length rest
        /\ markdownifyFrom "'" true rest
           = firstn n rest
             ++ markdownifyFrom (List.last (firstn n rest) "'"%byte) true (skipn n rest))
  /\ markdownify (Buffer.holding (joinLines [B "'''"; B "step rand"; B "'''"]))
     = joinLines [B "```shell"; B "step rand"; B "```"].
Proof.
  split; [|split].
  - apply ScanLaws.on_fence.
  - intros rest Hs n. split.
    + destruct rest as [|c t]; [discriminate|].
      destruct (RuneFacts.DecodeRune_size (c :: t)) as [H1 H2]; [easy|].
      subst n. lia.
    + rewrite <- (firstn_skipn n rest) at 1.
      apply ScanLaws.on_plain_run. now apply ScanLaws.space_is_plain.
  - vm_compute; reflexivity.
Qed.

(** An instance: the blank after an opening fence is written next. *)
Lemma fence_toggles_code_block_witness :
  opensWithSpace (B " ls") = true
  /\ markdownifyFrom "'" true (B " ls") = B " " ++ markdownifyFrom " " true (B "ls").
Proof.
  split; [reflexivity|].
  exact (proj2 (proj1 (proj2 fence_toggles_code_block) (B " ls") eq_refl)).
Defined.

(** C3: the quotes of a closing fence that follow an asterisk are not taken
    as a fence.  In a code block the byte read after an asterisk is not put
    back, so the first of the three quotes is lost, the two that are left
    open no fence, one quote is written and the code block goes on: the
    brackets of the last line stay as they are.  With a fourth quote the
    three after the lost one are taken as the closing fence. *)
Theorem closing_fence_lost_after_asterisk :
  markdownify (Buffer.holding (joinLines [B "'''"; B "ls *'''"; B "<after>"]))
  = joinLines [B "```shell"; B "ls *'"; B "<after>"]
  /\ (forall last c rest,
        markdownifyFrom last true (B "*'''" ++ c :: rest)
        = "*"%byte
            :: (if c =b? "'"
                then B "```" ++ markdownifyFrom "'" false rest
                else "'"%byte :: markdownifyFrom "'" true (c :: rest)))
  /\ markdownify (Buffer.holding (joinLines [B "'''"; B "ls"; B "'''"; B "<after>"]))
     = joinLines [B "```shell"; B "ls"; B "```"; B "`after`"].
Proof.
  split; [vm_compute; reflexivity|split; [|vm_compute; reflexivity]].
  intros last c rest.
  change (B "*'''" ++ c :: rest) with ("*"%byte :: "'"%byte :: "'"%byte :: "'"%byte :: c :: rest).
  rewrite ScanLaws.on_star_inside. cbn [app]. change ("'" =b? "*") with false. cbn [app].
  f_equal. destruct (c =b? "'") eqn:E.
  - apply Byte.byte_dec_bl in E. subst c.
    change ("'"%byte :: "'"%byte :: "'"%byte :: rest) with (B "'''" ++ rest).
    rewrite ScanLaws.on_fence. reflexivity.
  - rewrite ScanLaws.on_lone_quote; [reflexivity|].
    rewrite E. apply andb_false_r.
Qed.

(** C6, counterexample: the backslash of [a\b] stands alone and is followed
    by neither bracket, and it is not in the output. *)
Lemma lone_backslash_is_dropped :
  markdownify (Buffer.holding (B "a\b")) = B "ab"
  /\ ~ In escapeByte (markdownify (Buffer.holding (B "a\b"))).
Proof.
  split; [vm_compute; reflexivity|].
  vm_compute. intros [H|[H|[]]]; discriminate.
Qed.

(** C6, as amended: two backslashes in a row that the loop reads put one
    backslash in the output; a backslash read with a lookback that is not a
    backslash is consumed without output, whatever follows (before a byte
    without special meaning, only that byte comes out); read with a
    backslash as lookback it is written once and the lookback is cleared. *)
Theorem backslash_handling (last : byte) (inCode : bool) :
  (forall rest,
      markdownifyFrom last inCode (escapeByte :: escapeByte :: rest)
      = escapeByte
          :: markdownifyFrom (if last =b? escapeByte then escapeByte else x00) inCode rest)
  /\ (forall rest,
        markdownifyFrom last inCode (escapeByte :: rest)
        = if last =b? escapeByte
          then escapeByte :: markdownifyFrom x00 inCode rest
          else markdownifyFrom escapeByte inCode rest)
  /\ (forall c rest,
        isSpecial c = false ->
        markdownifyFrom last inCode (escapeByte :: c :: rest)
        = (if last =b? escapeByte then [escapeByte; c] else [c])
          ++ markdownifyFrom c inCode rest).
Proof.
  split; [|split].
  - intros rest. rewrite !ScanLaws.on_backslash.
    destruct (last =b? escapeByte); [reflexivity|].
    now rewrite byte_eqb_refl.
  - apply ScanLaws.on_backslash.
  - intros c rest Hc. rewrite ScanLaws.on_backslash.
    destruct (last =b? escapeByte); now rewrite ScanLaws.on_plain.
Qed.

(** An instance: the backslash of [\b] goes, the [b] stays. *)
Lemma backslash_handling_witness :
  isSpecial "b" = false
  /\ markdownifyFrom "a" false (B "\b!") = B "b" ++ markdownifyFrom "b" false (B "!").
Proof.
  split; [reflexivity|].
  exact (proj2 (proj2 (backslash_handling "a" false)) "b"%byte (B "!") eq_refl).
Defined.

(** C7: the two [UnreadByte] calls after a quote that opens no fence put
    back one byte only, the second call failing; the byte after the quote is
    lost, here the [s] of [it's ok]. *)
Theorem quote_lookahead_loses_a_byte :
  markdownify (Buffer.holding (B "it's ok")) = B "it' ok"
  /\ (forall bf o,
        Buffer.UnreadByte (snd (Buffer.UnreadByte (Buffer.mk bf (S o) Buffer.opRead)))
        = (Some Buffer.errUnreadByte, Buffer.mk bf o Buffer.opInvalid))
  /\ (forall last inCode b1 b2 rest,
        markdownifyFrom last inCode ("'"%byte :: b1 :: b2 :: rest)
        = if (b1 =b? "'") && (b2 =b? "'")
          then markdownifyFrom last inCode (B "'''" ++ rest)
          else "'"%byte :: markdownifyFrom "'" inCode (b2 :: rest)).
Proof.
  split; [vm_compute; reflexivity|split].
  - apply BufferFacts.UnreadByte_twice.
  - intros last inCode b1 b2 rest.
    destruct ((b1 =b? "'") && (b2 =b? "'")) eqn:E.
    + apply andb_true_iff in E as [->%Byte.byte_dec_bl ->%Byte.byte_dec_bl].
      reflexivity.
    + now apply ScanLaws.on_lone_quote.
Qed.

(** C8: in a code block the byte read after an asterisk is never put back,
    [UnreadByte] being called on the writer: a pair of asterisks is dropped,
    and a single asterisk is written but the byte after it is lost, here
    the [b] of [a*b]; outside a code block an asterisk passes through. *)
Theorem asterisk_in_code_loses_next_byte :
  markdownify (Buffer.holding (joinLines [B "'''"; B "a*b"; B "'''"]))
  = joinLines [B "```shell"; B "a*"; B "```"]
  /\ (forall w c,
        Buffer.UnreadByte (Buffer.WriteByte w c)
        = (Some Buffer.errUnreadByte, Buffer.WriteByte w c))
  /\ (forall last b1 rest,
        markdownifyFrom last true ("*"%byte :: b1 :: rest)
        = (if b1 =b? "*" then [] else ["*"%byte]) ++ markdownifyFrom "*" true rest)
  /\ (forall last rest,
        markdownifyFrom last false ("*"%byte :: rest)
        = "*"%byte :: markdownifyFrom "*" false rest).
Proof.
  split; [vm_compute; reflexivity|].
  split; [apply BufferFacts.UnreadByte_after_write|].
  split; [apply ScanLaws.on_star_inside|apply ScanLaws.on_star_outside].
Qed.

(** * Sections *)

Module StringFacts.
Import strings regexp.

Lemma HasPrefix_app s p : HasPrefix (p ++ s) p = true.
Proof. induction p as [|c p IH]; [now destruct s|]. simpl. now rewrite byte_eqb_refl. Qed.

Lemma HasPrefix_inv s p :
  HasPrefix s p = true -> exists t, s = p ++ t.
Proof.
  revert s; induction p as [|c p IH]; intros s H; [now exists s|].
  destruct s as [|x s]; [discriminate|]. simpl in H.
  apply andb_true_iff in H as [->%Byte.byte_dec_bl H].
  destruct (IH _ H) as [t ->]. now exists t.
Qed.

Lemma HasPrefix_iff s p : HasPrefix s p = true <-> exists t, s = p ++ t.
Proof.
  split; [apply HasPrefix_inv|]. intros [t ->]. apply HasPrefix_app.
Qed.

(** A prefix test looks at no more than [length p] bytes. *)
Lemma HasPrefix_firstn s p : HasPrefix s p = HasPrefix (firstn (length p) s) p.
Proof.
  revert s; induction p as [|c p IH]; intros s; [now destruct s|].
  destruct s as [|x s]; [reflexivity|]. simpl. now rewrite <- IH.
Qed.

Lemma HasPrefix_app_l s t p :
  length p <= length s -> HasPrefix (s ++ t) p = HasPrefix s p.
Proof.
  intros H. rewrite (HasPrefix_firstn (s ++ t)), (HasPrefix_firstn s).
  now rewrite firstn_app, (proj2 (Nat.sub_0_le _ _) H), app_nil_r.
Qed.

Lemma HasPrefix_shorter s p q : HasPrefix s (p ++ q) = true -> HasPrefix s p = true.
Proof.
  intros [t ->]%HasPrefix_inv. rewrite <- app_assoc. apply HasPrefix_app.
Qed.

Lemma HasPrefix_nth s p i :
  HasPrefix s p = true -> i < length p -> nth_error s i = nth_error p i.
Proof.
  intros [t ->]%HasPrefix_inv Hi. now rewrite nth_error_app1.
Qed.

(** [Index] finds the first position at which [substr] starts. *)
Lemma Index_Some s substr : forall i,
  Index s substr = Some i ->
  HasPrefix (skipn i s) substr = true
  /\ i <= length s
  /\ forall j, j < i -> HasPrefix (skipn j s) substr = false.
Proof.
  induction s as [|c s IH]; intros i; cbn [Index].
  - destruct (HasPrefix [] substr) eqn:E; [|discriminate].
    intros [= <-]. repeat split; auto. intros j Hj; lia.
  - destruct (HasPrefix (c :: s) substr) eqn:E.
    + intros [= <-]. repeat split; auto; [simpl; lia|]. intros j Hj; lia.
    + destruct (Index s substr) as [i'|]; [|discriminate].
      intros [= <-]. destruct (IH i' eq_refl) as (H1 & H2 & H3).
      repeat split; auto; [simpl; lia|].
      intros [|j] Hj; [exact E|]. apply H3. lia.
Qed.

Lemma Index_None s substr :
  Index s substr = None -> forall j, HasPrefix (skipn j s) substr = false.
Proof.
  induction s as [|c s IH]; cbn [Index].
  - destruct (HasPrefix [] substr) eqn:E; [discriminate|].
    intros _ j. now rewrite skipn_nil.
  - destruct (HasPrefix (c :: s) substr) eqn:E; [discriminate|].
    destruct (Index s substr) eqn:E'; [discriminate|].
    intros _ [|j]; [exact E|]. now apply IH.
Qed.

Lemma Index_intro s substr : forall i,
  HasPrefix (skipn i s) substr = true ->
  i <= length s ->
  (forall j, j < i -> HasPrefix (skipn j s) substr = false) ->
  Index s substr = Some i.
Proof.
  intros i H1 H2 H3.
  destruct (Index s substr) as [k|] eqn:E.
  - apply Index_Some in E as (K1 & K2 & K3).
    destruct (Nat.lt_trichotomy i k) as [Hlt|[->|Hgt]]; [|reflexivity|].
    + rewrite (K3 _ Hlt) in H1. discriminate.
    + rewrite (H3 _ Hgt) in K1. discriminate.
  - rewrite (Index_None _ _ E i) in H1. discriminate.
Qed.

Lemma startsLine_cons bol c s i :
  startsLine bol (c :: s) (S i) <-> startsLine (c =b? LF) s i.
Proof.
  unfold startsLine. cbn [Nat.sub]. rewrite Nat.sub_0_r. split.
  - intros [[? _]|[_ H]]; [lia|]. destruct i as [|i].
    + left. injection H as ->. auto using byte_eqb_refl.
    + right. split; [lia|]. simpl. now rewrite Nat.sub_0_r.
  - intros [[-> H]|[Hi H]]; right; (split; [lia|]).
    + apply Byte.byte_dec_bl in H. now subst.
    + destruct i; [lia|]. simpl in *. now rewrite Nat.sub_0_r in H.
Qed.

Lemma sectionRe_find_Some s : forall bol i,
  sectionRe_find bol s = Some i ->
  startsLine bol s i
  /\ HasPrefix (skipn i s) (B "##") = true
  /\ i < length s
  /\ forall j, j < i ->
       ~ (startsLine bol s j /\ HasPrefix (skipn j s) (B "##") = true).
Proof.
  induction s as [|c s IH]; intros bol i; cbn [sectionRe_find]; [discriminate|].
  destruct (bol && HasPrefix (c :: s) (B "##")) eqn:E.
  - intros [= <-]. apply andb_true_iff in E as [-> E].
    repeat split; auto; [now left|simpl; lia|]. intros j Hj; lia.
  - destruct (sectionRe_find (c =b? LF) s) as [i'|] eqn:E'; [|discriminate].
    intros [= <-]. destruct (IH _ _ E') as (H1 & H2 & H3 & H4).
    repeat split; auto; [now apply startsLine_cons|simpl; lia|].
    intros [|j] Hj [K1 K2].
    + destruct K1 as [[_ ->]|[? _]]; [|lia]. cbn [skipn] in K2.
      rewrite K2 in E. discriminate.
    + apply (H4 j); [lia|]. split; [now apply startsLine_cons in K1|exact K2].
Qed.

Lemma sectionRe_find_None s : forall bol,
  sectionRe_find bol s = None ->
  forall j, ~ (startsLine bol s j /\ HasPrefix (skipn j s) (B "##") = true).
Proof.
  induction s as [|c s IH]; intros bol; cbn [sectionRe_find].
  - intros _ j [_ H]. now rewrite skipn_nil in H.
  - destruct (bol && HasPrefix (c :: s) (B "##")) eqn:E; [discriminate|].
    destruct (sectionRe_find (c =b? LF) s) eqn:E'; [discriminate|].
    intros _ [|j] [K1 K2].
    + destruct K1 as [[_ ->]|[? _]]; [|lia]. cbn [skipn] in K2.
      rewrite K2 in E. discriminate.
    + apply (IH _ E' j). split; [now apply startsLine_cons in K1|exact K2].
Qed.

End StringFacts.

Module SectionFacts.
Import strings regexp StringFacts.

Lemma header_at s h start :
  HasPrefix (skipn start s) (header h) = true ->
  exists t, skipn start s = B "## " ++ h ++ t
            /\ skipn (start + 1) s = "#"%byte :: " "%byte :: h ++ t
            /\ skipn (start + 2) s = " "%byte :: h ++ t
            /\ start + 3 + length h <= length s.
Proof.
  intros [t E]%HasPrefix_inv. unfold header in E. rewrite <- app_assoc in E.
  exists t. split; [exact E|].
  rewrite (Nat.add_comm start 1), (Nat.add_comm start 2), <- !skipn_skipn, E.
  repeat split.
  apply (f_equal (@length _)) in E. rewrite length_skipn in E.
  cbn in E. rewrite length_app in E. lia.
Qed.

(** A header line at or after [start + 2] is one of the slice searched. *)
Lemma headerLineAt_slice s k p :
  headerLineAt s p -> k <= p ->
  startsLine true (skipn k s) (p - k)
  /\ HasPrefix (skipn (p - k) (skipn k s)) (B "##") = true.
Proof.
  intros [Hl Hp] Hk. split.
  - destruct (Nat.eq_dec p k) as [->|Hne].
    + rewrite Nat.sub_diag. now left.
    + right. split; [lia|]. rewrite nth_error_skipn.
      destruct Hl as [->|Hl]; [lia|].
      now replace (k + (p - k - 1)) with (p - 1) by lia.
  - rewrite skipn_skipn. now replace (p - k + k) with p by lia.
Qed.

Lemma findSectionEnd_None h s :
  findSectionEnd h s = None <-> Index s (header h) = None.
Proof.
  unfold findSectionEnd, header.
  destruct (Index s (B "## " ++ h)); [|easy].
  destruct (sectionRe_FindStringIndex _); easy.
Qed.

(** [findSectionEnd] returns the end of the extent of the section whose
    header text is found first. *)
Lemma findSectionEnd_extent h s e :
  findSectionEnd h s = Some e ->
  exists start, Index s (header h) = Some start /\ extentEnd s start e.
Proof.
  unfold findSectionEnd. fold (header h).
  destruct (Index s (header h)) as [start|] eqn:Ei; [|discriminate].
  intros He. exists start. split; [reflexivity|].
  destruct (Index_Some _ _ _ Ei) as (Hp & _ & _).
  destruct (header_at _ _ _ Hp) as (t & E0 & E1 & E2 & Hlen).
  assert (Hnot : forall p, start < p -> headerLineAt s p ->
                   start + 2 < p
                   /\ startsLine true (skipn (start + 2) s) (p - (start + 2))
                   /\ HasPrefix (skipn (p - (start + 2)) (skipn (start + 2) s)) (B "##")
                      = true).
  { intros p Hlt Hh.
    assert (start + 2 < p).
    { destruct Hh as [_ Hh].
      destruct (Nat.eq_dec p (start + 1)) as [->|]; [now rewrite E1 in Hh|].
      destruct (Nat.eq_dec p (start + 2)) as [->|]; [now rewrite E2 in Hh|]. lia. }
    split; [assumption|]. apply headerLineAt_slice; [assumption|lia]. }
  unfold sectionRe_FindStringIndex in He.
  destruct (sectionRe_find true (skipn (start + 2) s)) as [i|] eqn:Ef;
    injection He as <-.
  - destruct (sectionRe_find_Some _ _ _ Ef) as (H1 & H2 & H3 & H4).
    rewrite length_skipn in H3.
    assert (0 < i).
    { destruct i; [|lia]. cbn [skipn] in H2. now rewrite E2 in H2. }
    repeat split; try lia.
    + right. split.
      * right. destruct H1 as [[? _]|[_ H1]]; [lia|].
        rewrite nth_error_skipn in H1.
        now replace (start + 2 + i - 1) with (start + 2 + (i - 1)) by lia.
      * rewrite skipn_skipn in H2.
        now replace (start + 2 + i) with (i + (start + 2)) by lia.
    + intros p [Hlo Hhi] Hh. destruct (Hnot p Hlo Hh) as (Hp2 & K1 & K2).
      apply (H4 (p - (start + 2))); [lia|]. now split.
  - repeat split; try lia.
    intros p [Hlo Hhi] Hh. destruct (Hnot p Hlo Hh) as (Hp2 & K1 & K2).
    apply (sectionRe_find_None _ _ Ef (p - (start + 2))). now split.
Qed.

Lemma sectionExists_spec s h :
  sectionExists s h = match findSectionEnd h s with Some _ => true | None => false end.
Proof.
  unfold sectionExists, findSectionEnd. fold (header h).
  destruct (Index s (header h)); [|reflexivity].
  now destruct (sectionRe_FindStringIndex _).
Qed.

Lemma firstExisting_Some s h :
  firstExisting s = Some h ->
  In h targets /\ exists newLoc, findSectionEnd h s = Some newLoc.
Proof.
  unfold firstExisting. intros [Hin He]%find_some. split; [assumption|].
  rewrite sectionExists_spec in He.
  destruct (findSectionEnd h s) as [e|]; [now exists e|discriminate].
Qed.

(** The extent of a section has one end. *)
Lemma extentEnd_unique s start e e' :
  extentEnd s start e -> extentEnd s start e' -> e = e'.
Proof.
  intros (Hr & Hend & Hmin) (Hr' & Hend' & Hmin').
  destruct (Nat.lt_trichotomy e e') as [Hlt|[->|Hgt]]; [exfalso| reflexivity |exfalso].
  - destruct Hend as [->|Hh]; [lia|]. apply (Hmin' e); [lia|assumption].
  - destruct Hend' as [->|Hh]; [lia|]. apply (Hmin e'); [lia|assumption].
Qed.

Lemma findSectionEnd_intro h s start e :
  Index s (header h) = Some start -> extentEnd s start e ->
  findSectionEnd h s = Some e.
Proof.
  intros Hi Hext.
  destruct (findSectionEnd h s) as [e'|] eqn:E.
  - destruct (findSectionEnd_extent _ _ _ E) as (start' & Hi' & Hext').
    assert (start' = start) as -> by congruence.
    f_equal. eapply extentEnd_unique; eassumption.
  - apply findSectionEnd_None in E. congruence.
Qed.

(** The chain of [if]s of [helpPreprocessor] picks the first target that
    exists in the text from which OPTIONS has been cut. *)
Lemma relocateOptions_by_target s optLoc optEnd :
  Index s (B "## OPTIONS") = Some optLoc ->
  findSectionEnd (B "OPTIONS") s = Some optEnd ->
  relocateOptions s =
  let options := slice s optLoc optEnd in
  let cut := firstn optLoc s ++ skipn optEnd s in
  match firstExisting cut with
  | Some h =>
    match findSectionEnd h cut with
    | Some newLoc => firstn newLoc cut ++ options ++ skipn newLoc cut
    | None => cut ++ options
    end
  | None => cut ++ options
  end.
Proof.
  intros H1 H2. unfold relocateOptions. rewrite H1, H2. cbv zeta.
  unfold firstExisting, targets. cbn [find]. rewrite !sectionExists_spec.
  set (cut := firstn optLoc s ++ skipn optEnd s).
  destruct (findSectionEnd (B "POSITIONAL ARGUMENTS") cut) eqn:E1; [now rewrite E1|].
  destruct (findSectionEnd (B "Description") cut) eqn:E2; [now rewrite E2|].
  destruct (findSectionEnd (B "USAGE") cut) eqn:E3; [now rewrite E3|].
  destruct (findSectionEnd (B "NAME") cut) eqn:E4; [now rewrite E4|].
  reflexivity.
Qed.

(** When OPTIONS is there its span always has an end. *)
Lemma options_span s optLoc :
  Index s (B "## OPTIONS") = Some optLoc ->
  exists optEnd,
    findSectionEnd (B "OPTIONS") s = Some optEnd /\ extentEnd s optLoc optEnd.
Proof.
  intros H.
  destruct (findSectionEnd (B "OPTIONS") s) as [optEnd|] eqn:E.
  - exists optEnd. split; [reflexivity|].
    destruct (findSectionEnd_extent _ _ _ E) as (start & Hs & He).
    change (header (B "OPTIONS")) with (B "## OPTIONS") in Hs.
    congruence.
  - apply findSectionEnd_None in E.
    change (header (B "OPTIONS")) with (B "## OPTIONS") in E. congruence.
Qed.

End SectionFacts.

(** ** Occurrences and the search of [strings.Index] *)

Module OccurFacts.
Import strings StringFacts SectionFacts.

Lemma occursAt_HasPrefix s sub i :
  occursAt s sub i <-> HasPrefix (skipn i s) sub = true.
Proof. unfold occursAt. symmetry. apply HasPrefix_iff. Qed.

Lemma Index_firstOccurrence s sub i :
  Index s sub = Some i <-> firstOccurrence s sub i.
Proof.
  split.
  - intros H. apply Index_Some in H as (Hp & _ & Hmin). split.
    + now apply occursAt_HasPrefix.
    + intros j Hj Ho. apply occursAt_HasPrefix in Ho.
      rewrite (Hmin j Hj) in Ho. discriminate.
  - intros [Ho Hmin]. apply Index_intro.
    + now apply occursAt_HasPrefix.
    + destruct (Nat.le_gt_cases i (length s)) as [|Hgt]; [assumption|].
      exfalso. apply (Hmin 0); [lia|].
      destruct Ho as [t Ht]. rewrite skipn_all2 in Ht by lia.
      destruct sub; [|discriminate]. now exists s.
    + intros j Hj. destruct (HasPrefix (skipn j s) sub) eqn:E; [|reflexivity].
      exfalso. apply (Hmin j Hj). now apply occursAt_HasPrefix.
Qed.

Lemma Index_absent s sub : Index s sub = None <-> absent s sub.
Proof.
  split.
  - intros H i Ho. apply occursAt_HasPrefix in Ho.
    rewrite (Index_None _ _ H i) in Ho. discriminate.
  - intros H. destruct (Index s sub) as [i|] eqn:E; [|reflexivity].
    exfalso. apply (H i). now apply Index_firstOccurrence in E as [Ho _].
Qed.

(** The choice among the targets: the one chosen follows targets that do
    not occur. *)
Lemma firstExisting_split s :
  match firstExisting s with
  | Some h =>
    exists before after,
      targets = before ++ h :: after
      /\ forall h', In h' before -> Index s (header h') = None
  | None => forall h, In h targets -> Index s (header h) = None
  end.
Proof.
  unfold firstExisting, targets, sectionExists. cbn [find].
  destruct (Index s (header (B "POSITIONAL ARGUMENTS"))) eqn:E1.
  { exists [], [B "Description"; B "USAGE"; B "NAME"]. split; [reflexivity|]. intros ? []. }
  destruct (Index s (header (B "Description"))) eqn:E2.
  { exists [B "POSITIONAL ARGUMENTS"], [B "USAGE"; B "NAME"]. split; [reflexivity|].
    intros ? [<-|[]]. exact E1. }
  destruct (Index s (header (B "USAGE"))) eqn:E3.
  { exists [B "POSITIONAL ARGUMENTS"; B "Description"], [B "NAME"]. split; [reflexivity|].
    intros ? [<-|[<-|[]]]; assumption. }
  destruct (Index s (header (B "NAME"))) eqn:E4.
  { exists [B "POSITIONAL ARGUMENTS"; B "Description"; B "USAGE"], [].
    split; [reflexivity|]. intros ? [<-|[<-|[<-|[]]]]; assumption. }
  intros ? [<-|[<-|[<-|[<-|[]]]]]; assumption.
Qed.

(** A span and what surrounds it make up the text. *)
Lemma span_parts (s : bstring) lo hi :
  lo <= hi ->
  s = firstn lo s ++ firstn (hi - lo) (skipn lo s) ++ skipn hi s.
Proof.
  intros H. rewrite <- (firstn_skipn lo s) at 1. f_equal.
  rewrite <- (firstn_skipn (hi - lo) (skipn lo s)) at 1. f_equal.
  rewrite skipn_skipn. f_equal. lia.
Qed.

End OccurFacts.

(** C2, counterexample: the first text has no line headed [## OPTIONS],
    only a mention of it within a line, and relocation changes it: the rest
    of that line goes to the end and the line of the NAME header is joined
    to the words before the mention.  In the second text the same mention
    precedes a section headed [## OPTIONS]: that section stays where it is,
    after the mention's text has been put right before it. *)
Lemma midline_mention_is_relocated :
  (forall p, ~ sectionLineAt (doc [B "see ## OPTIONS below"; B "## NAME"; B "foo"])
                             (B "OPTIONS") p)
  /\ relocateOptions (doc [B "see ## OPTIONS below"; B "## NAME"; B "foo"])
     = doc [B "see ## NAME"; B "foo"; B "## OPTIONS below"]
  /\ relocateOptions (doc [B "see ## OPTIONS below"; B "## NAME"; B "foo"])
     <> doc [B "see ## OPTIONS below"; B "## NAME"; B "foo"]
  /\ sectionLineAt
       (doc [B "see ## OPTIONS below"; B "## NAME"; B "foo"; B "## OPTIONS"; B "bar"])
       (B "OPTIONS") 33
  /\ relocateOptions
       (doc [B "see ## OPTIONS below"; B "## NAME"; B "foo"; B "## OPTIONS"; B "bar"])
     = doc [B "see ## NAME"; B "foo"; B "## OPTIONS below"; B "## OPTIONS"; B "bar"].
Proof.
  split; [|split; [|split; [|split]]].
  - intros p [[Hl Hp] [t Ht]].
    do 40 (destruct p as [|p];
           [first [ cbn in Hp; discriminate Hp
                  | destruct Hl as [Hl|Hl]; [discriminate Hl|];
                    vm_compute in Hl; discriminate Hl
                  | vm_compute in Ht; discriminate Ht ]|]).
    cbn in Hp. discriminate Hp.
  - vm_compute; reflexivity.
  - vm_compute. discriminate.
  - split; [split; [right|]; vm_compute; reflexivity|].
    exists (doc [B ""; B "bar"]). vm_compute; reflexivity.
  - vm_compute; reflexivity.
Qed.

(** C2, as amended: a text in which [## OPTIONS] occurs nowhere is left as
    it is.  Otherwise the first occurrence of that text, at a line start or
    not, begins the span; the span ends at the start of the next line
    beginning with [##], or at the end; the text is what precedes the span,
    the span, and what follows it; the span is cut out and put back at the
    end of the extent of the first of POSITIONAL ARGUMENTS, Description,
    USAGE, NAME whose header text occurs in what remains, counted from its
    first occurrence there, and at the very end when none of them occurs.
    The example of the specification stays as it is, and OPTIONS goes
    after USAGE although NAME is there too. *)
Theorem options_relocation_by_text (s : bstring) :
  (absent s (B "## OPTIONS") -> relocateOptions s = s)
  /\ (forall optLoc,
        firstOccurrence s (B "## OPTIONS") optLoc ->
        exists optEnd,
          extentEnd s optLoc optEnd
          /\ let options := firstn (optEnd - optLoc) (skipn optLoc s) in
             let cut := firstn optLoc s ++ skipn optEnd s in
             s = firstn optLoc s ++ options ++ skipn optEnd s
             /\ ((exists before h after start newLoc,
                     targets = before ++ h :: after
                     /\ (forall h', In h' before -> absent cut (header h'))
                     /\ firstOccurrence cut (header h) start
                     /\ extentEnd cut start newLoc
                     /\ relocateOptions s
                        = firstn newLoc cut ++ options ++ skipn newLoc cut)
                 \/ ((forall h, In h targets -> absent cut (header h))
                     /\ relocateOptions s = cut ++ options)))
  /\ relocateOptions
       (doc [B "## NAME"; B "foo"; B "## OPTIONS"; B "bar"; B "## EXAMPLES"; B "baz"])
     = doc [B "## NAME"; B "foo"; B "## OPTIONS"; B "bar"; B "## EXAMPLES"; B "baz"]
  /\ relocateOptions
       (doc [B "## NAME"; B "foo"; B "## USAGE"; B "u"; B "## EXAMPLES"; B "baz";
             B "## OPTIONS"; B "bar"])
     = doc [B "## NAME"; B "foo"; B "## USAGE"; B "u"; B "## OPTIONS"; B "bar";
            B "## EXAMPLES"; B "baz"].
Proof.
  split; [|split; [|split; vm_compute; reflexivity]].
  - intros H. apply OccurFacts.Index_absent in H.
    unfold relocateOptions. now rewrite H.
  - intros optLoc Ho. apply OccurFacts.Index_firstOccurrence in Ho.
    destruct (SectionFacts.options_span s optLoc Ho) as (optEnd & He & Hext).
    exists optEnd. split; [assumption|]. cbv zeta.
    split; [apply OccurFacts.span_parts; destruct Hext as [? _]; lia|].
    rewrite (SectionFacts.relocateOptions_by_target s optLoc optEnd Ho He).
    cbv zeta. unfold slice.
    pose proof (OccurFacts.firstExisting_split (firstn optLoc s ++ skipn optEnd s)) as Hsplit.
    destruct (firstExisting (firstn optLoc s ++ skipn optEnd s)) as [h|] eqn:Ef.
    + left. destruct Hsplit as (before & after & Ht & Hb).
      destruct (SectionFacts.firstExisting_Some _ _ Ef) as (_ & newLoc & Hn).
      destruct (SectionFacts.findSectionEnd_extent _ _ _ Hn) as (start & Hs & Hx).
      exists before, h, after, start, newLoc. rewrite Hn.
      split; [exact Ht|]. split.
      { intros h' Hh'. apply OccurFacts.Index_absent. now apply Hb. }
      split; [now apply OccurFacts.Index_firstOccurrence|].
      split; [exact Hx|reflexivity].
    + right. split; [|reflexivity].
      intros h Hh. apply OccurFacts.Index_absent. now apply Hsplit.
Qed.

(** An instance: OPTIONS opens the text and NAME follows. *)
Lemma options_relocation_by_text_witness :
  firstOccurrence (doc [B "## OPTIONS"; B "bar"; B "## NAME"; B "foo"]) (B "## OPTIONS") 0
  /\ exists optEnd,
       extentEnd (doc [B "## OPTIONS"; B "bar"; B "## NAME"; B "foo"]) 0 optEnd
       /\ doc [B "## OPTIONS"; B "bar"; B "## NAME"; B "foo"]
          = firstn (optEnd - 0) (doc [B "## OPTIONS"; B "bar"; B "## NAME"; B "foo"])
            ++ skipn optEnd (doc [B "## OPTIONS"; B "bar"; B "## NAME"; B "foo"]).
Proof.
  assert (H : firstOccurrence (doc [B "## OPTIONS"; B "bar"; B "## NAME"; B "foo"])
                              (B "## OPTIONS") 0).
  { split; [exists (doc [B ""; B "bar"; B "## NAME"; B "foo"]); reflexivity|].
    intros j Hj. inversion Hj. }
  split; [exact H|].
  destruct (proj1 (proj2 (options_relocation_by_text _)) 0 H) as (optEnd & Hx & Hs & _).
  exists optEnd. split; [exact Hx|exact Hs].
Defined.

(** The priority order at work: OPTIONS goes after USAGE although
    NAME is there too, and stays where it is when it already follows NAME. *)
Example relocation_by_priority :
  relocateOptions
    (doc [B "## NAME"; B "foo"; B "## USAGE"; B "u"; B "## EXAMPLES"; B "baz"; B "## OPTIONS"; B "bar"])
  = doc [B "## NAME"; B "foo"; B "## USAGE"; B "u"; B "## OPTIONS"; B "bar"; B "## EXAMPLES"; B "baz"]
  /\ relocateOptions (doc [B "## NAME"; B "foo"; B "## OPTIONS"; B "bar"; B "## EXAMPLES"; B "baz"])
     = doc [B "## NAME"; B "foo"; B "## OPTIONS"; B "bar"; B "## EXAMPLES"; B "baz"].
Proof. split; vm_compute; reflexivity. Qed.

(** ** Offsets before and after the cut *)

Module CutFacts.
Import strings regexp StringFacts SectionFacts.

(** In the header text of a target only the first two bytes are [#]. *)
Lemma header_hash h i :
  In h targets -> nth_error (header h) i = Some "#"%byte -> i < 2.
Proof.
  intros [<-|[<-|[<-|[<-|[]]]]]; revert i;
    do 25 (intros [|i]; [cbn; intros; first [lia|discriminate]|revert i]);
    intros i; cbn; destruct i; discriminate.
Qed.

(** It has no newline. *)
Lemma header_no_LF h i :
  In h targets -> nth_error (header h) i <> Some LF.
Proof.
  intros [<-|[<-|[<-|[<-|[]]]]]; revert i;
    do 25 (intros [|i]; [cbn; discriminate|revert i]);
    intros i; cbn; destruct i; discriminate.
Qed.

Lemma HasPrefix_head s c q :
  HasPrefix s (c :: q) = true -> nth_error s 0 = Some c.
Proof. intros [t ->]%HasPrefix_inv. reflexivity. Qed.

Lemma header_length h : In h targets -> 3 < length (header h).
Proof. intros [<-|[<-|[<-|[<-|[]]]]]; cbn; lia. Qed.

Lemma header_third h : nth_error (header h) 2 = Some " "%byte.
Proof. reflexivity. Qed.

(** No header text of a target can begin before, and run into, a text
    that starts with [##]. *)
Lemma no_straddle h X R' :
  In h targets -> X <> [] -> length X < length (header h) ->
  HasPrefix (X ++ "#"%byte :: "#"%byte :: R') (header h) = false.
Proof.
  intros Hin HX Hlen.
  destruct (HasPrefix _ _) eqn:E; [exfalso|reflexivity].
  pose proof (HasPrefix_nth _ _ (length X) E Hlen) as H1.
  rewrite nth_error_app2, Nat.sub_diag in H1 by lia. cbn in H1.
  symmetry in H1. apply (header_hash h _ Hin) in H1.
  assert (length X = 1) as HX1 by (destruct X; [easy|simpl in *; lia]).
  pose proof (header_length h Hin) as H3.
  pose proof (HasPrefix_nth _ _ 2 E ltac:(lia)) as H2.
  rewrite nth_error_app2, HX1 in H2 by lia. cbn in H2. discriminate.
Qed.

Section Cut.
Variables (s : bstring) (optLoc optEnd : nat).
Hypothesis Hspan : optLoc < optEnd <= length s.

Local Abbreviation P := (firstn optLoc s).
Local Abbreviation R := (skipn optEnd s).

Lemma length_P : length P = optLoc.
Proof. rewrite length_firstn. lia. Qed.

(** Past the cut the text is the original, moved down. *)
Lemma skipn_cut_after j :
  optLoc <= j -> skipn j (P ++ R) = skipn (j - optLoc + optEnd) s.
Proof.
  intros Hj. rewrite skipn_app, length_P, skipn_all2 by (rewrite length_P; lia).
  now rewrite skipn_skipn.
Qed.

Lemma skipn_cut_before j :
  j <= optLoc -> skipn j (P ++ R) = skipn j P ++ R.
Proof.
  intros Hj. rewrite skipn_app, length_P.
  now replace (j - optLoc) with 0 by lia.
Qed.

Lemma skipn_orig_before j :
  j <= optLoc -> skipn j s = skipn j P ++ skipn optLoc s.
Proof.
  intros Hj. rewrite <- (firstn_skipn optLoc s) at 1.
  rewrite skipn_app, length_P. now replace (j - optLoc) with 0 by lia.
Qed.

Lemma length_cut : length (P ++ R) = length s - (optEnd - optLoc).
Proof. rewrite length_app, length_P, length_skipn. lia. Qed.

(** A header found after the span is found, in the cut text, as far
    down as the span is long. *)
Lemma Index_cut_after h start :
  In h targets ->
  extentEnd s optLoc optEnd ->
  Index s (header h) = Some start -> optEnd <= start ->
  Index (P ++ R) (header h) = Some (start - (optEnd - optLoc)).
Proof.
  intros Hin (_ & Hend & _) Hi Hle.
  destruct (Index_Some _ _ _ Hi) as (H1 & H2 & H3).
  destruct (header_at _ _ _ H1) as (t & _ & _ & _ & Hlen).
  destruct Hend as [->|[_ Hhdr]]; [lia|].
  apply HasPrefix_inv in Hhdr as [R' HR]. cbn in HR.
  apply Index_intro.
  - rewrite skipn_cut_after by lia.
    now replace (start - (optEnd - optLoc) - optLoc + optEnd) with start by lia.
  - rewrite length_cut. lia.
  - intros j Hj. destruct (Nat.le_gt_cases optLoc j) as [Hge|Hlt].
    + rewrite skipn_cut_after by assumption. apply H3. lia.
    + rewrite skipn_cut_before by lia.
      destruct (Nat.le_gt_cases (length (header h)) (length (skipn j P))) as [Hl|Hl].
      * rewrite HasPrefix_app_l by assumption.
        rewrite <- (HasPrefix_app_l _ (skipn optLoc s)) by assumption.
        rewrite <- skipn_orig_before by lia. apply H3. lia.
      * rewrite HR. apply no_straddle; try assumption.
        intros E. apply (f_equal (@length _)) in E.
        rewrite length_skipn, length_P in E. simpl in E. lia.
Qed.

(** And so is the end of its extent. *)
Lemma findSectionEnd_cut_after h start e :
  In h targets ->
  extentEnd s optLoc optEnd ->
  Index s (header h) = Some start -> optEnd <= start ->
  findSectionEnd h s = Some e ->
  findSectionEnd h (P ++ R) = Some (e - (optEnd - optLoc))
  /\ optEnd < e <= length s.
Proof.
  intros Hin Hext Hi Hle He.
  pose proof (Index_cut_after h start Hin Hext Hi Hle) as Hc.
  destruct (findSectionEnd_extent _ _ _ He) as (start' & Hi' & (Hlt & _)).
  assert (start' = start) as -> by congruence.
  split; [|lia].
  unfold findSectionEnd in *. fold (header h) in *. rewrite Hi in He. rewrite Hc.
  rewrite skipn_cut_after by lia.
  replace (start - (optEnd - optLoc) + 2 - optLoc + optEnd) with (start + 2) by lia.
  destruct (sectionRe_FindStringIndex (skipn (start + 2) s)) as [i|];
    injection He as <-; f_equal; [lia|apply length_cut].
Qed.

(** Before the cut the text is the original. *)
Lemma nth_error_cut_before q : q < optLoc -> nth_error (P ++ R) q = nth_error s q.
Proof.
  intros Hq. rewrite nth_error_app1 by (rewrite length_P; lia).
  rewrite nth_error_firstn. destruct (Nat.ltb_spec q optLoc); [reflexivity|lia].
Qed.

Lemma HasPrefix_cut_before p q :
  p + length q <= optLoc ->
  HasPrefix (skipn p (P ++ R)) q = HasPrefix (skipn p s) q.
Proof.
  intros H. rewrite skipn_cut_before, (skipn_orig_before p) by lia.
  rewrite !HasPrefix_app_l; [reflexivity|..]; rewrite length_skipn, length_P; lia.
Qed.

(** A header found before an OPTIONS header that starts a line stays
    where it is, and ends before that line. *)
Lemma Index_cut_before h start :
  In h targets ->
  headerLineAt s optLoc ->
  Index s (header h) = Some start -> start < optLoc ->
  Index (P ++ R) (header h) = Some start
  /\ start + length (header h) < optLoc.
Proof.
  intros Hin [Hl _] Hi Hlt.
  destruct (Index_Some _ _ _ Hi) as (H1 & H2 & H3).
  assert (Hfit : start + length (header h) < optLoc).
  { destruct (Nat.lt_ge_cases (start + length (header h)) optLoc) as [|Hge];
      [assumption|exfalso].
    destruct Hl as [->|Hl]; [lia|].
    pose proof (HasPrefix_nth _ _ (optLoc - 1 - start) H1 ltac:(lia)) as Hn.
    rewrite nth_error_skipn in Hn.
    replace (start + (optLoc - 1 - start)) with (optLoc - 1) in Hn by lia.
    rewrite Hl in Hn. symmetry in Hn. now apply (header_no_LF h _ Hin) in Hn. }
  split; [|exact Hfit]. apply Index_intro.
  - rewrite HasPrefix_cut_before by lia. exact H1.
  - rewrite length_cut. lia.
  - intros j Hj. rewrite HasPrefix_cut_before by lia. now apply H3.
Qed.

(** And the end of its extent stays where it is. *)
Lemma findSectionEnd_cut_before h start e :
  In h targets ->
  extentEnd s optLoc optEnd ->
  headerLineAt s optLoc ->
  Index s (header h) = Some start -> start < optLoc ->
  findSectionEnd h s = Some e ->
  findSectionEnd h (P ++ R) = Some e /\ start < e <= optLoc.
Proof.
  intros Hin (_ & Hoend & _) Hopt Hi Hlt He.
  destruct (Index_cut_before h start Hin Hopt Hi Hlt) as [Hc Hfit].
  destruct (findSectionEnd_extent _ _ _ He) as (start' & Hi' & (Hr & Hend & Hmin)).
  assert (start' = start) as -> by congruence.
  assert (Hle : e <= optLoc).
  { destruct (Nat.le_gt_cases e optLoc); [assumption|exfalso].
    apply (Hmin optLoc); [lia|assumption]. }
  assert (HLF : nth_error s (optLoc - 1) = Some LF).
  { destruct Hopt as [[->|Hl] _]; [lia|exact Hl]. }
  assert (Hhdr : headerLineAt s e) by (destruct Hend as [->|Hh]; [lia|exact Hh]).
  split; [|lia]. apply findSectionEnd_intro with start; [exact Hc|].
  split; [rewrite length_cut; lia|split].
  - destruct (Nat.eq_dec e optLoc) as [->|Hne].
    + destruct Hoend as [Hoe|[_ Hp]]; [left; rewrite length_cut; lia|right].
      split; [right; rewrite nth_error_cut_before by lia; exact HLF|].
      rewrite skipn_cut_after by lia.
      now replace (optLoc - optLoc + optEnd) with optEnd by lia.
    + right. destruct Hhdr as [Hl Hp].
      assert (e + 2 <= optLoc).
      { destruct (Nat.eq_dec (e + 1) optLoc) as [E|]; [exfalso|lia].
        apply HasPrefix_head in Hp. rewrite nth_error_skipn, Nat.add_0_r in Hp.
        replace (optLoc - 1) with e in HLF by lia.
        rewrite HLF in Hp. vm_compute in Hp. discriminate. }
      split.
      * right. rewrite nth_error_cut_before by lia.
        destruct Hl as [->|Hl]; [lia|exact Hl].
      * rewrite HasPrefix_cut_before by (cbn; lia). exact Hp.
  - intros p [Hlo Hhi] [Hl Hp]. apply (Hmin p); [lia|]. split.
    + destruct Hl as [->|Hl]; [lia|]. right.
      rewrite nth_error_cut_before in Hl by lia. exact Hl.
    + destruct (Nat.eq_dec (p + 1) optLoc) as [E|E].
      * exfalso. apply HasPrefix_head in Hp.
        rewrite nth_error_skipn, Nat.add_0_r, nth_error_cut_before in Hp by lia.
        replace (optLoc - 1) with p in HLF by lia.
        rewrite HLF in Hp. vm_compute in Hp. discriminate.
      * rewrite HasPrefix_cut_before in Hp by (cbn; lia). exact Hp.
Qed.

End Cut.

End CutFacts.

(** C5, counterexample: with OPTIONS before NAME, the end of NAME's extent
    is offset 27 of the original text and offset 12 of the text without the
    OPTIONS span; [relocateOptions] inserts at 12, and inserting at the
    original offset gives another text. *)
Lemma insertion_offset_is_recomputed :
  let s := doc [B "## OPTIONS"; B "bar"; B "## NAME"; B "foo"; B "## EXAMPLES"; B "baz"] in
  let cut := doc [B "## NAME"; B "foo"; B "## EXAMPLES"; B "baz"] in
  findSectionEnd (B "NAME") s = Some 27
  /\ findSectionEnd (B "NAME") cut = Some 12
  /\ relocateOptions s
     = doc [B "## NAME"; B "foo"; B "## OPTIONS"; B "bar"; B "## EXAMPLES"; B "baz"]
  /\ relocateOptions s <> relocateAtOriginalOffsets s.
Proof.
  cbv zeta. repeat apply conj; try (vm_compute; reflexivity).
  vm_compute. discriminate.
Qed.

(** C5, as amended: the insertion offset is the end of the target's extent
    in the text from which the OPTIONS span has been cut, found by a new
    search there.  When the span lies before the target's header, that
    offset is the one in the original text less the length of the span;
    when the target's header lies before an OPTIONS header that starts a
    line, it is the offset in the original text.  Either way the relocated
    text is the original with the span moved to the end of the target's
    extent. *)
Theorem insertion_offset_after_cut (s h : bstring) (optLoc optEnd start e : nat) :
  In h targets ->
  strings.Index s (B "## OPTIONS") = Some optLoc ->
  findSectionEnd (B "OPTIONS") s = Some optEnd ->
  strings.Index s (header h) = Some start ->
  findSectionEnd h s = Some e ->
  let cut := firstn optLoc s ++ skipn optEnd s in
  (optEnd <= start ->
   findSectionEnd h cut = Some (e - (optEnd - optLoc))
   /\ (firstExisting cut = Some h ->
       relocateOptions s
       = firstn optLoc s ++ slice s optEnd e ++ slice s optLoc optEnd ++ skipn e s))
  /\ (start < optLoc -> headerLineAt s optLoc ->
      findSectionEnd h cut = Some e
      /\ (firstExisting cut = Some h ->
          relocateOptions s
          = firstn e s ++ slice s optLoc optEnd ++ slice s e optLoc ++ skipn optEnd s)).
Proof.
  intros Hin Hi Ho Hs He cut.
  destruct (SectionFacts.options_span s optLoc Hi) as (optEnd' & Ho' & Hext).
  assert (optEnd' = optEnd) as -> by congruence.
  pose proof Hext as (Hspan & _).
  assert (length (firstn optLoc s) = optLoc) as HP by (rewrite length_firstn; lia).
  pose proof (SectionFacts.relocateOptions_by_target s optLoc optEnd Hi Ho) as Hrel.
  cbv zeta in Hrel. fold cut in Hrel.
  split.
  - intros Hle.
    destruct (CutFacts.findSectionEnd_cut_after s optLoc optEnd Hspan h start e
                Hin Hext Hs Hle He) as [Hc He'].
    fold cut in Hc. split; [exact Hc|].
    intros Hf. rewrite Hrel, Hf, Hc. unfold cut.
    rewrite firstn_app, skipn_app, HP.
    assert (firstn (e - (optEnd - optLoc)) (firstn optLoc s) = firstn optLoc s) as ->
      by (apply firstn_all2; rewrite HP; lia).
    assert (skipn (e - (optEnd - optLoc)) (firstn optLoc s) = []) as ->
      by (apply skipn_all2; rewrite HP; lia).
    replace (e - (optEnd - optLoc) - optLoc) with (e - optEnd) by lia.
    rewrite skipn_skipn. replace (e - optEnd + optEnd) with e by lia.
    unfold slice. cbn [app]. now rewrite <- !app_assoc.
  - intros Hlt Hopt.
    destruct (CutFacts.findSectionEnd_cut_before s optLoc optEnd Hspan h start e
                Hin Hext Hopt Hs Hlt He) as [Hc He'].
    fold cut in Hc. split; [exact Hc|].
    intros Hf. rewrite Hrel, Hf, Hc. unfold cut.
    rewrite firstn_app, skipn_app, HP, firstn_firstn, skipn_firstn_comm.
    replace (Nat.min e optLoc) with e by lia.
    replace (e - optLoc) with 0 by lia.
    unfold slice. cbn [firstn skipn]. now rewrite app_nil_r.
Qed.

(** Two instances: OPTIONS before NAME (27 in the original, 12 after the
    cut), and OPTIONS last (12 in both). *)
Lemma insertion_offset_after_cut_witness :
  (let s := doc [B "## OPTIONS"; B "bar"; B "## NAME"; B "foo"; B "## EXAMPLES"; B "baz"] in
   findSectionEnd (B "NAME") (firstn 0 s ++ skipn 15 s) = Some (27 - (15 - 0)))
  /\ (let s := doc [B "## NAME"; B "foo"; B "## EXAMPLES"; B "baz"; B "## OPTIONS"; B "bar"] in
      findSectionEnd (B "NAME") (firstn 28 s ++ skipn 43 s) = Some 12).
Proof.
  split; intros s.
  - apply (insertion_offset_after_cut s (B "NAME") 0 15 15 27).
    + simpl. tauto.
    + vm_compute; reflexivity.
    + vm_compute; reflexivity.
    + vm_compute; reflexivity.
    + vm_compute; reflexivity.
    + lia.
  - apply (insertion_offset_after_cut s (B "NAME") 28 43 0 12).
    + simpl. tauto.
    + vm_compute; reflexivity.
    + vm_compute; reflexivity.
    + vm_compute; reflexivity.
    + vm_compute; reflexivity.
    + lia.
    + split; [right|]; vm_compute; reflexivity.
Defined.

(** * Capitalization of the section titles *)

Module CapFacts.
Import strings regexp StringFacts.

Lemma restOfLine_line t y :
  isLine t -> (y = [] \/ exists s', y = LF :: s') -> restOfLine (t ++ y) = t.
Proof.
  unfold isLine. induction t as [|c t IH]; intros Ht Hy.
  - destruct Hy as [->|[s' ->]]; reflexivity.
  - cbn. destruct (byte_eqb_spec c LF) as [->|_].
    + exfalso. apply Ht. now left.
    + f_equal. apply IH; [|assumption]. intros H. apply Ht. now right.
Qed.

(** On a line the pattern matches the whole line or nothing. *)
Lemma matchHere_line l y :
  isLine l -> (y = [] \/ exists s', y = LF :: s') ->
  sectionNameRe_matchHere (l ++ y) = if isHeaderLine l then Some l else None.
Proof.
  intros Hl Hy. unfold sectionNameRe_matchHere, isHeaderLine.
  destruct l as [|a [|b [|c t]]].
  - destruct Hy as [->|[s' ->]]; reflexivity.
  - destruct Hy as [->|[s' ->]]; cbn; now rewrite ?andb_false_r.
  - destruct Hy as [->|[s' ->]]; cbn; now rewrite ?andb_false_r.
  - rewrite HasPrefix_app_l by (cbn; lia).
    destruct (HasPrefix (a :: b :: c :: t) (B "## ")) eqn:E; [|reflexivity].
    apply HasPrefix_inv in E as [t' E]. cbn in E. injection E as -> -> -> ->.
    cbn [app skipn andb]. rewrite restOfLine_line; [|intros H; apply Hl; cbn; tauto|assumption].
    destruct t' as [|x t']; reflexivity.
Qed.

Section Replace.
Variable repl : bstring -> bstring.

Lemma replace_skip x : forall bol y,
  x <> [] ->
  sectionNameRe_replace repl bol (length x) (x ++ y)
  = sectionNameRe_replace repl false 0 y.
Proof.
  induction x as [|c x IH]; intros bol y Hx; [easy|].
  cbn [length app sectionNameRe_replace].
  destruct x as [|d x]; [reflexivity|]. now apply IH.
Qed.

Lemma replace_copy l : forall y,
  isLine l ->
  sectionNameRe_replace repl false 0 (l ++ y)
  = l ++ sectionNameRe_replace repl false 0 y.
Proof.
  unfold isLine. induction l as [|c l IH]; intros y Hl; [reflexivity|].
  cbn [app sectionNameRe_replace].
  destruct (byte_eqb_spec c LF) as [->|_]; [exfalso; apply Hl; now left|].
  f_equal. apply IH. intros H. apply Hl. now right.
Qed.

(** A line is replaced when it is a header line, and copied otherwise. *)
Lemma replace_line l y :
  isLine l -> (y = [] \/ exists s', y = LF :: s') ->
  sectionNameRe_replace repl true 0 (l ++ y)
  = (if isHeaderLine l then repl l else l)
    ++ sectionNameRe_replace repl false 0 y.
Proof.
  intros Hl Hy. pose proof (matchHere_line l y Hl Hy) as Hm.
  destruct l as [|c l].
  - cbn [isHeaderLine HasPrefix B list_byte_of_string andb app] in *.
    destruct Hy as [->|[s' ->]]; [reflexivity|].
    cbn [sectionNameRe_replace]. cbn [app] in Hm. now rewrite Hm.
  - cbn [app sectionNameRe_replace]. cbn [app] in Hm. rewrite Hm.
    destruct (isHeaderLine (c :: l)) eqn:Eh.
    + f_equal. replace (length (c :: l) - 1) with (length l) by (cbn; lia).
      apply replace_skip. intros ->.
      unfold isHeaderLine in Eh. cbn in Eh. now rewrite !andb_false_r in Eh.
    + destruct (byte_eqb_spec c LF) as [->|_]; [exfalso; apply Hl; now left|].
      cbn [app]. f_equal. apply replace_copy. intros H. apply Hl. now right.
Qed.

Lemma replace_lines ls :
  Forall isLine ls ->
  sectionNameRe_replace repl true 0 (joinLines ls)
  = joinLines (map (fun l => if isHeaderLine l then repl l else l) ls).
Proof.
  induction ls as [|l ls IH]; intros Hls; [reflexivity|].
  inversion Hls as [|? ? Hl Hls']; subst.
  destruct ls as [|l2 ls].
  - cbn [joinLines map]. rewrite <- (app_nil_r l) at 1.
    rewrite replace_line by auto. cbn. now rewrite app_nil_r.
  - change (joinLines (l :: l2 :: ls)) with (l ++ LF :: joinLines (l2 :: ls)).
    rewrite replace_line by eauto.
    cbn [sectionNameRe_replace]. rewrite byte_eqb_refl, IH by assumption.
    reflexivity.
Qed.

(** Without a line that starts with [##] nothing is replaced. *)
Lemma replace_no_header s : forall bol,
  sectionRe_find bol s = None -> sectionNameRe_replace repl bol 0 s = s.
Proof.
  induction s as [|c s IH]; intros bol; [reflexivity|].
  cbn [sectionRe_find sectionNameRe_replace].
  destruct (bol && HasPrefix (c :: s) (B "##")) eqn:E; [discriminate|].
  destruct (sectionRe_find (c =b? LF) s) eqn:Ef; [discriminate|]. intros _.
  assert ((if bol then sectionNameRe_matchHere (c :: s) else None) = None) as ->.
  { destruct bol; [|reflexivity]. unfold sectionNameRe_matchHere.
    destruct (HasPrefix (c :: s) (B "## ")) eqn:E3; [|reflexivity].
    apply (HasPrefix_shorter _ (B "##") (B " ")) in E3.
    cbn [andb] in E. congruence. }
  f_equal. now apply IH.
Qed.

End Replace.

(** Every text is the join of its lines. *)
Lemma lines_of_text s : exists ls, Forall isLine ls /\ s = joinLines ls.
Proof.
  enough (exists l ls, Forall isLine (l :: ls) /\ s = joinLines (l :: ls))
    as (l & ls & H) by now exists (l :: ls).
  induction s as [|c s (l & ls & Hall & ->)].
  - exists [], []. split; [repeat constructor; intros []|reflexivity].
  - destruct (byte_eqb_spec c LF) as [->|Hc].
    + exists [], (l :: ls). split; [constructor; [intros []|assumption]|reflexivity].
    + exists (c :: l), ls. inversion Hall as [|? ? Hl Hls]; subst. split.
      * constructor; [|assumption]. intros [H|H]; [now apply Hc|now apply Hl].
      * now destruct ls.
Qed.

Lemma ToLower_ascii lower t :
  forallb (fun c => (byteZ c <? utf8.RuneSelf)%Z) t = true ->
  ToLower lower t = map lowerASCII t.
Proof.
  intros H. unfold ToLower. rewrite H.
  destruct (existsb isUpperASCII t) eqn:E; [reflexivity|].
  clear H. induction t as [|c t IH]; [reflexivity|].
  cbn in E. apply orb_false_elim in E as [Ec Et].
  cbn [map]. rewrite <- IH by assumption. unfold lowerASCII. now rewrite Ec.
Qed.

End CapFacts.

(** X17: with [capOnlyFirst] the text is the one of the other mode with its
    titles recapitalized; every text is made of lines, and there every line
    made of [## ] and a title keeps these three bytes and the first byte of
    the title, the bytes after it are lowercased by [strings.ToLower], each
    line on its own, and every other line is left as it is. *)
Theorem header_capitalization (lower : bstring -> bstring) :
  (forall rendered,
      helpPreprocessor lower rendered true
      = capitalizeTitles lower (helpPreprocessor lower rendered false))
  /\ (forall s, exists ls, Forall isLine ls /\ s = joinLines ls)
  /\ (forall ls,
        Forall isLine ls ->
        capitalizeTitles lower (joinLines ls) = joinLines (map (capLine lower) ls))
  /\ (forall title,
        forallb (fun c => (byteZ c <? utf8.RuneSelf)%Z) title = true ->
        strings.ToLower lower title = map strings.lowerASCII title)
  /\ capitalizeTitles lower (B "## OPTIONS") = B "## Options"
  /\ capitalizeTitles lower (B "## POSITIONAL ARGUMENTS") = B "## Positional arguments".
Proof.
  split; [reflexivity|]. split; [apply CapFacts.lines_of_text|].
  split; [|split; [apply CapFacts.ToLower_ascii|]].
  - intros ls Hls. unfold capitalizeTitles, regexp.sectionNameRe_ReplaceAllStringFunc.
    rewrite CapFacts.replace_lines by assumption. f_equal.
    apply map_ext. intros l. unfold capLine.
    destruct (isHeaderLine l) eqn:E; [|now destruct l as [|? [|? [|? [|? ?]]]]].
    destruct l as [|h1 [|h2 [|sp [|c t]]]];
      try (unfold isHeaderLine in E; cbn in E; rewrite ?andb_false_r in E; discriminate).
    reflexivity.
  - split; vm_compute; reflexivity.
Qed.

(** An instance with two header lines around an ordinary line. *)
Lemma header_capitalization_witness :
  Forall isLine [B "## OPTIONS"; B "--flag VALUE"; B "## SEE ALSO"]
  /\ capitalizeTitles (fun s => s)
       (joinLines [B "## OPTIONS"; B "--flag VALUE"; B "## SEE ALSO"])
     = joinLines (map (capLine (fun s => s))
                      [B "## OPTIONS"; B "--flag VALUE"; B "## SEE ALSO"]).
Proof.
  assert (H : Forall isLine [B "## OPTIONS"; B "--flag VALUE"; B "## SEE ALSO"]).
  { repeat constructor; unfold isLine; vm_compute;
      intros K; repeat (destruct K as [K|K]; [discriminate|]); exact K. }
  split; [exact H|].
  exact (proj1 (proj2 (proj2 (header_capitalization (fun s => s)))) _ H).
Defined.

(** ** The Unicode branch of [strings.ToLower] *)

Module MapFacts.
Import stringsMap.

Lemma firstChange_ext (f g : Z -> Z) (H : forall r, f r = g r) fuel : forall s i,
  firstChange f fuel s i = firstChange g fuel s i.
Proof.
  induction fuel as [|fuel IH]; intros s i; [reflexivity|].
  cbn [firstChange]. destruct (skipn i s) as [|c0 t]; [reflexivity|].
  destruct (utf8.DecodeRune (c0 :: t)) as [c w]. cbv zeta.
  now rewrite H, !IH.
Qed.

Lemma writeMapped_ext (f g : Z -> Z) (H : forall r, f r = g r) fuel : forall s,
  writeMapped f fuel s = writeMapped g fuel s.
Proof.
  induction fuel as [|fuel IH]; intros s; [reflexivity|].
  cbn [writeMapped]. destruct s as [|c0 t]; [reflexivity|].
  destruct (utf8.DecodeRune (c0 :: t)) as [c w]. cbv zeta.
  now rewrite H, IH.
Qed.

(** [Map] depends on the values of the mapping only. *)
Lemma Map_ext (f g : Z -> Z) (H : forall r, f r = g r) s : Map f s = Map g s.
Proof.
  unfold Map. rewrite (firstChange_ext f g H).
  destruct (firstChange g (length s) s 0) as [[b rest]|]; [|reflexivity].
  now rewrite (writeMapped_ext f g H).
Qed.

(** The case mapping with its value at U+FFFD made explicit. *)
Lemma ToLower_at_RuneError (caseTable : Z -> Z) :
  caseTable utf8.RuneError = utf8.RuneError ->
  forall r,
    unicodeCase.ToLower caseTable r
    = unicodeCase.ToLower
        (fun x => if (x =? utf8.RuneError)%Z then utf8.RuneError else caseTable x) r.
Proof.
  intros H r. unfold unicodeCase.ToLower.
  destruct (r <=? unicodeCase.MaxASCII)%Z; [reflexivity|].
  destruct (r =? utf8.RuneError)%Z eqn:E; [|reflexivity].
  apply Z.eqb_eq in E. now subst r.
Qed.

(** What the code makes of the line [ecole]: its first four bytes, and
    the lowercasing of the bytes after them. *)
Lemma capitalizeTitles_ecole (lower : bstring -> bstring) :
  capitalizeTitles lower ecole
  = B "## " ++ [xc3] ++ strings.ToLower lower (x89 :: B "COLE").
Proof.
  transitivity (B "## " ++ [xc3] ++ (strings.ToLower lower (x89 :: B "COLE") ++ [])).
  - vm_compute; reflexivity.
  - now rewrite app_nil_r.
Qed.

End MapFacts.

(** C9: the title of the header line [ecole] begins with a character of
    two bytes, [C3 89].  The code keeps the first four bytes of the line,
    so it cuts this character after its first byte; the second byte, now
    the first of the text to lowercase, is no valid UTF-8 and [strings.Map]
    writes U+FFFD, the bytes [EF BF BD], for it.  The first character of
    the title is not in the result.  This holds whatever the case tables
    say of other runes, U+FFFD having no lowercase form; an ASCII title is
    treated as the specification says. *)
Theorem title_first_character_is_cut (caseTable : Z -> Z) :
  caseTable utf8.RuneError = utf8.RuneError ->
  capitalizeTitles (lowerUnicode caseTable) ecole
  = B "## " ++ [xc3] ++ [xef; xbf; xbd] ++ B "cole"
  /\ (forall lower, capitalizeTitles lower ecole
                    = B "## " ++ [xc3] ++ strings.ToLower lower (x89 :: B "COLE"))
  /\ capitalizeTitles (lowerUnicode caseTable) (B "## ECOLE") = B "## Ecole".
Proof.
  intros H. split; [|split; [apply MapFacts.capitalizeTitles_ecole|vm_compute; reflexivity]].
  rewrite MapFacts.capitalizeTitles_ecole.
  transitivity
    (B "## " ++ [xc3]
       ++ stringsMap.Map
            (unicodeCase.ToLower
               (fun x => if (x =? utf8.RuneError)%Z then utf8.RuneError else caseTable x))
            (x89 :: B "COLE")).
  - do 2 f_equal. apply MapFacts.Map_ext. now apply MapFacts.ToLower_at_RuneError.
  - vm_compute; reflexivity.
Qed.

(** An instance: case tables that change nothing. *)
Lemma title_first_character_is_cut_witness :
  (fun r : Z => r) utf8.RuneError = utf8.RuneError
  /\ capitalizeTitles (lowerUnicode (fun r => r)) ecole
     = B "## " ++ [xc3] ++ [xef; xbf; xbd] ++ B "cole".
Proof.
  split; [reflexivity|].
  exact (proj1 (title_first_character_is_cut (fun r => r) eq_refl)).
Defined.

(** * The whole normalization *)

Module IdentityFacts.
Import strings regexp StringFacts SectionFacts.

(** Outside a code block inert bytes are copied. *)
Lemma markdownify_inert input : forall last,
  Forall (fun c => isInert c = true) input ->
  markdownifyFrom last false input = input.
Proof.
  induction input as [|c input IH]; intros last Hall; [apply ScanLaws.at_end|].
  inversion Hall as [|? ? Hc Hrest]; subst.
  destruct (byte_eqb_spec c "*") as [->|Hstar].
  - rewrite ScanLaws.on_star_outside. f_equal. now apply IH.
  - rewrite ScanLaws.on_plain; [f_equal; now apply IH|].
    unfold isInert in Hc. apply negb_true_iff in Hc.
    repeat (apply orb_false_elim in Hc as [Hc ?]).
    unfold isSpecial. rewrite Hc, (byte_eqb_neq _ _ Hstar). cbn.
    repeat match goal with H : _ = false |- _ => rewrite H end. reflexivity.
Qed.

Lemma sectionRe_find_prefix A : forall bol Y,
  sectionRe_find bol (A ++ Y) = None -> sectionRe_find bol A = None.
Proof.
  induction A as [|c A IH]; intros bol Y; [reflexivity|].
  cbn [app sectionRe_find].
  destruct (bol && HasPrefix (c :: A ++ Y) (B "##")) eqn:E; [discriminate|].
  destruct (sectionRe_find (c =b? LF) (A ++ Y)) eqn:Ef; [discriminate|]. intros _.
  rewrite (IH _ _ Ef).
  destruct (bol && HasPrefix (c :: A) (B "##")) eqn:E'; [|reflexivity].
  apply andb_true_iff in E' as [-> [t Ht]%HasPrefix_inv].
  change (c :: A ++ Y) with ((c :: A) ++ Y) in E.
  rewrite Ht, <- app_assoc, HasPrefix_app in E. discriminate.
Qed.

Lemma headerLineAt_startsLine s p : headerLineAt s p -> startsLine true s p.
Proof.
  intros [[->|H] _]; [now left|].
  destruct p; [now left|right]. split; [lia|exact H].
Qed.

(** [sectionRe] finds nothing exactly when no line starts with [##]. *)
Lemma no_header_line s :
  sectionRe_FindStringIndex s = None <-> forall p, ~ headerLineAt s p.
Proof.
  split.
  - intros Hn p Hh. apply (sectionRe_find_None _ _ Hn p).
    split; [now apply headerLineAt_startsLine|apply Hh].
  - intros H. unfold sectionRe_FindStringIndex.
    destruct (sectionRe_find true s) as [i|] eqn:E; [exfalso|reflexivity].
    destruct (sectionRe_find_Some _ _ _ E) as (H1 & H2 & _).
    apply (H i). split; [|exact H2].
    destruct H1 as [[-> _]|[_ H1]]; [now left|now right].
Qed.

(** Without a line that starts with [##] every section runs to the end. *)
Lemma findSectionEnd_no_header h s e :
  sectionRe_FindStringIndex s = None ->
  findSectionEnd h s = Some e -> e = length s.
Proof.
  intros Hn He.
  destruct (findSectionEnd_extent _ _ _ He) as (start & _ & _ & [->|Hh] & _);
    [reflexivity|exfalso].
  apply (sectionRe_find_None _ _ Hn e).
  split; [now apply headerLineAt_startsLine|apply Hh].
Qed.

Lemma relocateOptions_no_header s :
  sectionRe_FindStringIndex s = None -> relocateOptions s = s.
Proof.
  intros Hn.
  destruct (Index s (B "## OPTIONS")) as [optLoc|] eqn:Ei;
    [|unfold relocateOptions; now rewrite Ei].
  destruct (options_span s optLoc Ei) as (optEnd & He & (Hspan & _)).
  rewrite (relocateOptions_by_target s optLoc optEnd Ei He). cbv zeta.
  rewrite (findSectionEnd_no_header _ _ _ Hn He) in *.
  rewrite skipn_all, app_nil_r.
  assert (firstn optLoc s ++ slice s optLoc (length s) = s) as Hs.
  { unfold slice.
    assert (firstn (length s - optLoc) (skipn optLoc s) = skipn optLoc s) as ->
      by (apply firstn_all2; rewrite length_skipn; lia).
    apply firstn_skipn. }
  destruct (firstExisting (firstn optLoc s)) as [h|] eqn:Ef; [|exact Hs].
  destruct (firstExisting_Some _ _ Ef) as (_ & newLoc & Hnew). rewrite Hnew.
  assert (sectionRe_FindStringIndex (firstn optLoc s) = None) as Hn'.
  { apply (sectionRe_find_prefix _ true (skipn optLoc s)).
    now rewrite firstn_skipn. }
  rewrite (findSectionEnd_no_header _ _ _ Hn' Hnew).
  now rewrite firstn_all, skipn_all, app_nil_r.
Qed.

End IdentityFacts.

(** C4, counterexample: [C:\dir] has no bracket, no quote and no header
    line, and its backslash is missing from the output. *)
Lemma backslash_breaks_identity :
  helpPreprocessor (fun s => s) (B "C:\dir") false = B "C:dir"
  /\ helpPreprocessor (fun s => s) (B "C:\dir") false <> B "C:\dir".
Proof.
  split; [vm_compute; reflexivity|]. vm_compute. discriminate.
Qed.

(** C4, as amended: an input without [<], [>], single quote and backslash,
    none of whose lines starts with [##] (that is, in which [sectionRe]
    finds nothing, see [IdentityFacts.no_header_line]), is its own
    normalization, in either capitalization mode. *)
Theorem normalization_identity (lower : bstring -> bstring) (input : bstring)
        (capOnlyFirst : bool) :
  Forall (fun c => isInert c = true) input ->
  regexp.sectionRe_FindStringIndex input = None ->
  helpPreprocessor lower input capOnlyFirst = input.
Proof.
  intros Hinert Hn. unfold helpPreprocessor.
  rewrite ScanFacts.markdownify_contents, BufferFacts.String_holding.
  rewrite IdentityFacts.markdownify_inert by assumption.
  rewrite IdentityFacts.relocateOptions_no_header by assumption.
  destruct capOnlyFirst; [|reflexivity].
  unfold capitalizeTitles, regexp.sectionNameRe_ReplaceAllStringFunc.
  now apply CapFacts.replace_no_header.
Qed.

(** An instance: asterisks, hashes and even the words [## OPTIONS] in the
    middle of a line are left alone. *)
Lemma normalization_identity_witness :
  helpPreprocessor (fun s => s) (B "step ca init **--name**=value # see ## OPTIONS") true
  = B "step ca init **--name**=value # see ## OPTIONS".
Proof.
  apply normalization_identity.
  - repeat constructor.
  - vm_compute; reflexivity.
Defined.

(** * Further properties of the escape transform *)

Module ScanMore.
Import ScanFacts ScanLaws.

Lemma isUnquoted_false c :
  isUnquoted c = true -> (c =b? "'") = false /\ (c =b? escapeByte) = false.
Proof.
  unfold isUnquoted. intros H%negb_true_iff. now apply orb_false_elim in H.
Qed.

Lemma isCodePlain_false c :
  isCodePlain c = true ->
  (c =b? "'") = false /\ (c =b? "*") = false /\ (c =b? escapeByte) = false.
Proof.
  unfold isCodePlain. intros H%negb_true_iff.
  apply orb_false_elim in H as [H ?]. apply orb_false_elim in H as [? ?]. auto.
Qed.

(** Outside a code block, with a lookback that is no backslash, a byte that
    is neither quote nor backslash is written through [backtickBracket]. *)
Lemma on_unquoted last b rest :
  (last =b? escapeByte) = false -> isUnquoted b = true ->
  markdownifyFrom last false (b :: rest)
  = backtickBracket b :: markdownifyFrom b false rest.
Proof.
  intros Hl (Hq & He)%isUnquoted_false.
  rewrite markdownifyFrom_turn. cbn [turn_effect]. unfold backtickBracket, bracket.
  rewrite Hl, Hq, He. cbn [negb andb].
  destruct (b =b? "<"); [reflexivity|]. destruct (b =b? ">"); [reflexivity|].
  cbn [orb]. now destruct (b =b? "*").
Qed.

Lemma unquoted_run input : forall last,
  (last =b? escapeByte) = false ->
  Forall (fun c => isUnquoted c = true) input ->
  markdownifyFrom last false input = map backtickBracket input.
Proof.
  induction input as [|b input IH]; intros last Hl Hall; [apply at_end|].
  inversion Hall as [|? ? Hb Hrest]; subst.
  rewrite on_unquoted by assumption. cbn [map]. f_equal.
  apply IH; [|assumption]. now apply isUnquoted_false in Hb.
Qed.

(** Inside a code block a byte that is no quote, asterisk or backslash is
    copied, brackets included. *)
Lemma on_code_plain last b rest :
  isCodePlain b = true ->
  markdownifyFrom last true (b :: rest) = b :: markdownifyFrom b true rest.
Proof.
  intros (Hq & Hs & He)%isCodePlain_false.
  rewrite markdownifyFrom_turn. cbn [turn_effect]. unfold bracket.
  rewrite Hq, Hs, He, andb_false_r.
  destruct (b =b? "<"); [reflexivity|]. now destruct (b =b? ">").
Qed.

Lemma code_plain_run body : forall last rest,
  Forall (fun c => isCodePlain c = true) body ->
  markdownifyFrom last true (body ++ rest)
  = body ++ markdownifyFrom (List.last body last) true rest.
Proof.
  induction body as [|b body IH]; intros last rest Hall; [reflexivity|].
  inversion Hall as [|? ? Hb Hrest]; subst.
  cbn [app]. rewrite on_code_plain by assumption. rewrite IH by assumption.
  now rewrite last_cons.
Qed.

Lemma backslash_pair last inCode rest :
  (last =b? escapeByte) = false ->
  markdownifyFrom last inCode (escapeByte :: escapeByte :: rest)
  = escapeByte :: markdownifyFrom x00 inCode rest.
Proof.
  intros Hl. now rewrite !on_backslash, Hl, byte_eqb_refl.
Qed.

End ScanMore.

(** X1: [markdownify] returns on every buffer, within one turn more than
    there are unread bytes and with any larger number of turns alike, and
    what it returns depends on the unread bytes only, not on the bytes
    already read nor on the last operation done on the buffer. *)
Theorem markdownify_returns_on_contents (r : Buffer.t) :
  markdownify_loop (S (Buffer.Len r)) r Buffer.new x00 false = Some (markdownify r)
  /\ (forall turns,
        Buffer.Len r < turns ->
        markdownify_loop turns r Buffer.new x00 false = Some (markdownify r))
  /\ (forall r', Buffer.String r' = Buffer.String r -> markdownify r' = markdownify r).
Proof.
  split; [apply ScanFacts.markdownify_returns|split].
  - intros turns Ht.
    rewrite ScanFacts.markdownify_loop_from, ScanFacts.markdownify_contents;
      [reflexivity|apply BufferFacts.wf_new|now rewrite <- BufferFacts.Len_String].
  - intros r' E. now rewrite !ScanFacts.markdownify_contents, E.
Qed.

(** An instance: a buffer of which two bytes have been read and one unread. *)
Lemma markdownify_returns_on_contents_witness :
  markdownify (Buffer.mk (B "xy<a>") 2 Buffer.opRead)
  = markdownify (Buffer.holding (B "<a>")).
Proof.
  apply (proj2 (proj2 (markdownify_returns_on_contents (Buffer.holding (B "<a>"))))).
  reflexivity.
Defined.

(** X2: on text without quote and without backslash the transform works
    byte by byte: brackets become backticks and every other byte is kept,
    so that the output is as long as the input and has no bracket left, and
    a second pass changes nothing. *)
Theorem markdownify_bytewise (r : Buffer.t) :
  Forall (fun c => isUnquoted c = true) (Buffer.String r) ->
  markdownify r = map backtickBracket (Buffer.String r)
  /\ length (markdownify r) = length (Buffer.String r)
  /\ ~ In "<"%byte (markdownify r) /\ ~ In ">"%byte (markdownify r)
  /\ markdownify (Buffer.holding (markdownify r)) = markdownify r.
Proof.
  intros Hall.
  assert (E : markdownify r = map backtickBracket (Buffer.String r)).
  { rewrite ScanFacts.markdownify_contents. now apply ScanMore.unquoted_run. }
  assert (Hno : forall c, In c (markdownify r) -> c <> "<"%byte /\ c <> ">"%byte).
  { intros c Hc. rewrite E in Hc. apply in_map_iff in Hc as (x & <- & _).
    unfold backtickBracket.
    destruct (byte_eqb_spec x "<") as [->|H1]; [split; discriminate|].
    destruct (byte_eqb_spec x ">") as [->|H2]; [split; discriminate|].
    now split. }
  split; [exact E|]. split; [now rewrite E, length_map|].
  split; [intros H; now apply Hno in H|]. split; [intros H; now apply Hno in H|].
  rewrite ScanFacts.markdownify_contents, BufferFacts.String_holding.
  rewrite ScanMore.unquoted_run; [| reflexivity |].
  - rewrite E, map_map. apply map_ext. intros c. unfold backtickBracket.
    destruct (byte_eqb_spec c "<") as [->|H1]; [reflexivity|].
    destruct (byte_eqb_spec c ">") as [->|H2]; [reflexivity|].
    cbn [orb]. now rewrite (byte_eqb_neq _ _ H1), (byte_eqb_neq _ _ H2).
  - rewrite E. apply Forall_map. eapply Forall_impl; [|exact Hall].
    intros c Hc. unfold backtickBracket.
    destruct ((c =b? "<") || (c =b? ">")); [reflexivity|exact Hc].
Qed.

Lemma markdownify_bytewise_witness :
  markdownify (Buffer.holding (B "step ca <init> [--name=<name>]"))
  = map backtickBracket (B "step ca <init> [--name=<name>]").
Proof.
  refine (proj1 (markdownify_bytewise
                   (Buffer.holding (B "step ca <init> [--name=<name>]")) _)).
  change (Forall (fun c => isUnquoted c = true) (B "step ca <init> [--name=<name>]")).
  repeat constructor.
Defined.

(** X3: a block between two fences whose body has no quote, asterisk or
    backslash comes out with the same body between backtick fences,
    brackets untouched; the opening fence gets [shell] when white space
    follows it, the closing fence never does, and the scanner is outside a
    code block again afterwards. *)
Theorem fenced_block_verbatim (last : byte) (body rest : bstring) :
  Forall (fun c => isCodePlain c = true) body ->
  markdownifyFrom last false (B "'''" ++ body ++ B "'''" ++ rest)
  = B "```"
    ++ (if opensWithSpace (body ++ B "'''" ++ rest) then B "shell" else [])
    ++ body ++ B "```" ++ markdownifyFrom "'" false rest.
Proof.
  intros Hbody. rewrite ScanLaws.on_fence. cbn [negb andb]. f_equal. f_equal.
  rewrite ScanMore.code_plain_run by assumption. f_equal.
  rewrite ScanLaws.on_fence. cbn [negb andb]. reflexivity.
Qed.

Lemma fenced_block_verbatim_witness :
  markdownifyFrom x00 false (B "'''" ++ x0a :: B "$ step <x>" ++ B "'''" ++ B "<y>")
  = B "```" ++ B "shell" ++ x0a :: B "$ step <x>" ++ B "```"
    ++ markdownifyFrom "'" false (B "<y>").
Proof.
  refine (fenced_block_verbatim x00 (x0a :: B "$ step <x>") (B "<y>") _).
  repeat constructor.
Defined.

(** X4: a run of backslashes read with a lookback that is no backslash is
    halved: [2k] of them give [k] and leave the lookback cleared, [2k+1]
    give [k] as well and leave a backslash as lookback, which then escapes
    what follows. *)
Theorem backslash_runs_are_halved (k : nat) (last : byte) (inCode : bool)
        (rest : bstring) :
  (last =b? escapeByte) = false ->
  markdownifyFrom last inCode (repeat escapeByte (2 * k) ++ rest)
  = repeat escapeByte k ++ markdownifyFrom (if k =? 0 then last else x00) inCode rest
  /\ markdownifyFrom last inCode (repeat escapeByte (2 * k + 1) ++ rest)
     = repeat escapeByte k ++ markdownifyFrom escapeByte inCode rest.
Proof.
  revert last. induction k as [|k IH]; intros last Hl.
  - split; [reflexivity|]. cbn [Nat.mul Nat.add repeat app].
    now rewrite ScanLaws.on_backslash, Hl.
  - replace (2 * S k) with (S (S (2 * k))) by lia.
    replace (S (S (2 * k)) + 1) with (S (S (2 * k + 1))) by lia.
    cbn [repeat app]. rewrite !ScanMore.backslash_pair by assumption.
    destruct (IH x00 eq_refl) as [IH1 IH2]. rewrite IH1, IH2.
    split; [|reflexivity]. cbn [Nat.eqb]. now destruct k.
Qed.

Lemma backslash_runs_are_halved_witness :
  markdownifyFrom "a" false (repeat escapeByte (2 * 2 + 1) ++ B "<b>")
  = repeat escapeByte 2 ++ markdownifyFrom escapeByte false (B "<b>").
Proof.
  exact (proj2 (backslash_runs_are_halved 2 "a" false (B "<b>") eq_refl)).
Defined.

(** X5: at the end of the input the lookahead reads fail and are ignored:
    a quote with fewer than two bytes after it is written and the byte
    after it dropped; a fence that ends the input gets no [shell]; an
    asterisk that ends a code block is written; a backslash that ends the
    input is dropped unless it completes a pair. *)
Theorem end_of_input (last : byte) (inCode : bool) :
  markdownifyFrom last inCode [] = []
  /\ markdownifyFrom last inCode ["'"%byte] = ["'"%byte]
  /\ (forall b, markdownifyFrom last inCode ["'"%byte; b] = ["'"%byte])
  /\ markdownifyFrom last inCode (B "'''") = B "```"
  /\ markdownifyFrom last true ["*"%byte] = ["*"%byte]
  /\ markdownifyFrom last inCode [escapeByte]
     = if last =b? escapeByte then [escapeByte] else [].
Proof.
  repeat apply conj.
  - apply ScanLaws.at_end.
  - rewrite ScanFacts.markdownifyFrom_turn. cbn. now rewrite ScanLaws.at_end.
  - intros b. rewrite ScanFacts.markdownifyFrom_turn. cbn.
    now rewrite ScanLaws.at_end.
  - rewrite <- (app_nil_r (B "'''")), ScanLaws.on_fence, ScanLaws.at_end.
    cbn [opensWithSpace]. now rewrite andb_false_r.
  - rewrite ScanFacts.markdownifyFrom_turn. cbn. now rewrite ScanLaws.at_end.
  - rewrite ScanLaws.on_backslash, !ScanLaws.at_end. reflexivity.
Qed.

Module ScanBounds.
Import ScanFacts.

(** What one turn writes is paid for by what it reads, and is made of
    bytes read or of the transform's own. *)
Lemma turn_effect_budget last inCode rest out last' inCode' rest' :
  turn_effect last inCode rest = Some (out, last', inCode', rest') ->
  3 * length out + 8 * length rest' <= 8 * length rest
  /\ Forall (fun c => In c rest \/ In c ownBytes) out
  /\ (forall c, In c rest' -> In c rest).
Proof.
  destruct rest as [|b t]; [easy|]. cbn [turn_effect]. unfold bracket.
  intros [= H]. revert H.
  repeat match goal with
         | |- context [if ?c then _ else _] => destruct c eqn:?
         | |- context [match ?l with [] => _ | _ :: _ => _ end] => destruct l
         end;
    intros [= <- <- <- <-];
    (split; [simpl; lia|split; [|intros c Hc; simpl in *; tauto]]);
    try (let x := eval vm_compute in (B "shell") in change (B "shell") with x);
    repeat (apply Forall_cons || apply Forall_nil);
    first [ left; simpl; tauto
          | right; vm_compute; tauto
          | left; left; symmetry; apply Byte.byte_dec_bl; assumption ].
Qed.

Lemma markdownifyFrom_bounded n : forall rest last inCode,
  length rest <= n ->
  3 * length (markdownifyFrom last inCode rest) <= 8 * length rest
  /\ Forall (fun c => In c rest \/ In c ownBytes) (markdownifyFrom last inCode rest).
Proof.
  induction n as [|n IH]; intros rest last inCode Hn;
    rewrite markdownifyFrom_turn;
    destruct (turn_effect last inCode rest) as [[[[o l'] c'] rest']|] eqn:Et;
    try (split; [simpl; lia|constructor]).
  - apply turn_effect_shorter in Et. lia.
  - pose proof (turn_effect_shorter _ _ _ _ _ _ _ Et) as Hs.
    destruct (turn_effect_budget _ _ _ _ _ _ _ Et) as (Hb & Ho & Hi).
    destruct (IH rest' l' c' ltac:(lia)) as [IH1 IH2].
    split; [rewrite length_app; lia|].
    apply Forall_app. split; [exact Ho|].
    eapply Forall_impl; [|exact IH2]. intros c [Hc|Hc]; auto.
Qed.

End ScanBounds.

(** X6: the output is at most 8/3 as long as the unread input (three
    quotes can become the eight bytes of a fence with [shell]), and all its
    bytes are bytes of the input, backticks, or letters of [shell]: the
    transform invents nothing else. *)
Theorem markdownify_output_bounded (r : Buffer.t) :
  3 * length (markdownify r) <= 8 * length (Buffer.String r)
  /\ Forall (fun c => In c (Buffer.String r) \/ In c ownBytes) (markdownify r).
Proof.
  rewrite ScanFacts.markdownify_contents.
  now apply (ScanBounds.markdownifyFrom_bounded (length (Buffer.String r))).
Qed.

(** * Further properties of the sections *)

Module SectionMore.
Import strings regexp StringFacts SectionFacts.

(** A text is the part before the span, the span and the part after it. *)
Lemma span_split s optLoc optEnd :
  optLoc <= optEnd ->
  firstn optLoc s ++ slice s optLoc optEnd ++ skipn optEnd s = s.
Proof.
  intros H. unfold slice.
  replace (skipn optEnd s) with (skipn (optEnd - optLoc) (skipn optLoc s))
    by (rewrite skipn_skipn; f_equal; lia).
  now rewrite firstn_skipn, firstn_skipn.
Qed.

Lemma relocateOptions_cases s :
  relocateOptions s = s
  \/ exists optLoc optEnd n,
       optLoc <= optEnd
       /\ relocateOptions s
          = firstn n (firstn optLoc s ++ skipn optEnd s)
            ++ slice s optLoc optEnd
            ++ skipn n (firstn optLoc s ++ skipn optEnd s).
Proof.
  destruct (Index s (B "## OPTIONS")) as [optLoc|] eqn:Ei;
    [|left; unfold relocateOptions; now rewrite Ei].
  destruct (options_span s optLoc Ei) as (optEnd & He & (Hspan & _)).
  right. exists optLoc, optEnd.
  rewrite (relocateOptions_by_target s optLoc optEnd Ei He). cbv zeta.
  set (cut := firstn optLoc s ++ skipn optEnd s).
  assert (Hend : cut ++ slice s optLoc optEnd
                 = firstn (length cut) cut ++ slice s optLoc optEnd
                   ++ skipn (length cut) cut)
    by now rewrite firstn_all, skipn_all, app_nil_r.
  destruct (firstExisting cut) as [h|]; [|exists (length cut); split; [lia|exact Hend]].
  destruct (findSectionEnd h cut) as [n|];
    [exists n|exists (length cut)]; (split; [lia|easy]).
Qed.

Lemma relocateOptions_perm s : Permutation (relocateOptions s) s.
Proof.
  destruct (relocateOptions_cases s)
    as [->|(optLoc & optEnd & n & Hle & ->)]; [reflexivity|].
  set (cut := firstn optLoc s ++ skipn optEnd s).
  etransitivity; [apply Permutation_app_swap_app|].
  rewrite (firstn_skipn n cut). unfold cut.
  etransitivity; [apply Permutation_app_swap_app|].
  now rewrite span_split.
Qed.

End SectionMore.

(** X7: [findSectionEnd] gives no offset exactly when the header text
    occurs nowhere in the text; otherwise it takes the first occurrence, and
    its result lies more than two bytes after the start of that occurrence,
    within the text, at the start of the next line that begins with [##] or
    at the end of the text, no such line lying in between.  This holds for
    every title, not only those the preprocessor asks for. *)
Theorem findSectionEnd_contract (h s : bstring) :
  match findSectionEnd h s with
  | None => forall i, strings.HasPrefix (skipn i s) (header h) = false
  | Some e =>
    exists start,
      strings.HasPrefix (skipn start s) (header h) = true
      /\ (forall j, j < start -> strings.HasPrefix (skipn j s) (header h) = false)
      /\ start + 2 < e <= length s
      /\ extentEnd s start e
  end.
Proof.
  destruct (findSectionEnd h s) as [e|] eqn:E.
  - destruct (SectionFacts.findSectionEnd_extent _ _ _ E) as (start & Hi & Hext).
    destruct (StringFacts.Index_Some _ _ _ Hi) as (H1 & _ & H3).
    exists start. repeat split; try assumption; try apply Hext.
    destruct (SectionFacts.header_at _ _ _ H1) as (t & _ & E1 & E2 & Hlen).
    destruct Hext as (Hr & [->|[_ Hp]] & _); [lia|].
    destruct (Nat.eq_dec e (start + 1)) as [->|]; [now rewrite E1 in Hp|].
    destruct (Nat.eq_dec e (start + 2)) as [->|]; [now rewrite E2 in Hp|]. lia.
  - apply SectionFacts.findSectionEnd_None in E.
    now apply StringFacts.Index_None.
Qed.

(** X8: relocation only reorders: its result is a permutation of the bytes
    of the text, of the same length; nothing is lost and nothing is
    doubled. *)
Theorem relocation_only_reorders (s : bstring) :
  Permutation (relocateOptions s) s
  /\ length (relocateOptions s) = length s.
Proof.
  pose proof (SectionMore.relocateOptions_perm s) as H.
  split; [exact H|now apply Permutation_length].
Qed.

(** X9: a text whose OPTIONS section already follows the chosen target is
    a fixed point: when the extent of the first target that exists ends
    where the OPTIONS header starts, relocation returns the text as it is. *)
Theorem relocation_fixed_point (s h : bstring) (optLoc optEnd : nat) :
  strings.Index s (B "## OPTIONS") = Some optLoc ->
  findSectionEnd (B "OPTIONS") s = Some optEnd ->
  firstExisting (firstn optLoc s ++ skipn optEnd s) = Some h ->
  findSectionEnd h s = Some optLoc ->
  relocateOptions s = s.
Proof.
  intros Hi Ho Hf He.
  destruct (SectionFacts.options_span s optLoc Hi) as (optEnd' & Ho' & Hext).
  assert (optEnd' = optEnd) as -> by congruence.
  pose proof Hext as (Hspan & _).
  destruct (SectionFacts.firstExisting_Some _ _ Hf) as (Hin & _).
  destruct (SectionFacts.findSectionEnd_extent _ _ _ He)
    as (start & Hs & (Hlt & [Hlen|Hopt] & _)); [lia|].
  destruct (CutFacts.findSectionEnd_cut_before s optLoc optEnd Hspan h start optLoc
              Hin Hext Hopt Hs ltac:(lia) He) as [Hc _].
  rewrite (SectionFacts.relocateOptions_by_target s optLoc optEnd Hi Ho). cbv zeta.
  rewrite Hf, Hc.
  assert (length (firstn optLoc s) = optLoc) as HP by (rewrite length_firstn; lia).
  rewrite firstn_app, skipn_app, HP, Nat.sub_diag.
  assert (firstn optLoc (firstn optLoc s) = firstn optLoc s) as ->
    by (apply firstn_all2; lia).
  assert (skipn optLoc (firstn optLoc s) = []) as ->
    by (apply skipn_all2; lia).
  cbn [firstn skipn app].
  rewrite app_nil_r. apply SectionMore.span_split. lia.
Qed.

Lemma relocation_fixed_point_witness :
  let s := doc [B "## NAME"; B "foo"; B "## OPTIONS"; B "bar"; B "## EXAMPLES"; B "baz"] in
  relocateOptions s = s.
Proof.
  intros s. apply (relocation_fixed_point s (B "NAME") 12 27);
    vm_compute; reflexivity.
Defined.

(** * Further properties of the capitalization and of the whole *)

Module CapMore.
Import strings regexp StringFacts CapFacts.

Lemma lowerASCII_idem c : lowerASCII (lowerASCII c) = lowerASCII c.
Proof. destruct c; reflexivity. Qed.

Lemma lowerASCII_LF c : lowerASCII c = LF -> c = LF.
Proof. destruct c; intros H; first [reflexivity|discriminate H]. Qed.

Lemma lowerASCII_ascii c :
  (byteZ (lowerASCII c) <? utf8.RuneSelf)%Z = (byteZ c <? utf8.RuneSelf)%Z.
Proof. destruct c; reflexivity. Qed.

Lemma isASCII_map_lower t : isASCII (map lowerASCII t) = isASCII t.
Proof.
  unfold isASCII. induction t as [|c t IH]; [reflexivity|].
  cbn [map forallb]. now rewrite lowerASCII_ascii, IH.
Qed.

Lemma isASCII_lines ls :
  isASCII (joinLines ls) = true <-> Forall (fun l => isASCII l = true) ls.
Proof.
  unfold isASCII. induction ls as [|l ls IH]; [now split; [constructor|]|].
  destruct ls as [|l2 ls].
  - cbn [joinLines]. split; [now repeat constructor|now inversion 1].
  - change (joinLines (l :: l2 :: ls)) with (l ++ LF :: joinLines (l2 :: ls)).
    rewrite forallb_app. cbn [forallb].
    change ((byteZ LF <? utf8.RuneSelf)%Z) with true. cbn [andb].
    rewrite andb_true_iff, IH. split.
    + intros [H1 H2]. now constructor.
    + now inversion 1.
Qed.

(** The capitalization, line by line, kept here for the proofs below. *)
Lemma capitalizeTitles_lines lower ls :
  Forall isLine ls ->
  capitalizeTitles lower (joinLines ls) = joinLines (map (capLine lower) ls).
Proof.
  intros Hls. unfold capitalizeTitles, sectionNameRe_ReplaceAllStringFunc.
  rewrite replace_lines by assumption. f_equal.
  apply map_ext. intros l. unfold capLine.
  destruct (isHeaderLine l) eqn:E; [|now destruct l as [|? [|? [|? [|? ?]]]]].
  destruct l as [|h1 [|h2 [|sp [|c t]]]];
    try (unfold isHeaderLine in E; cbn in E; rewrite ?andb_false_r in E; discriminate).
  reflexivity.
Qed.

(** On an ASCII line the capitalization is plain byte arithmetic. *)
Lemma capLine_ascii lower l :
  isASCII l = true ->
  capLine lower l
  = if isHeaderLine l then firstn 4 l ++ map lowerASCII (skipn 4 l) else l.
Proof.
  intros Ha. unfold capLine.
  destruct l as [|h1 [|h2 [|sp [|c t]]]]; try now destruct (isHeaderLine _).
  destruct (isHeaderLine _); [|reflexivity].
  cbn [firstn skipn app]. do 4 f_equal. apply ToLower_ascii.
  unfold isASCII in Ha. cbn [forallb] in Ha.
  now repeat (apply andb_true_iff in Ha as [_ Ha]).
Qed.

Lemma isHeaderLine_long l : isHeaderLine l = true -> 4 <= length l.
Proof.
  unfold isHeaderLine. intros [_ H]%andb_true_iff. apply Nat.ltb_lt in H. lia.
Qed.

Lemma isHeaderLine_lower l :
  isHeaderLine l = true ->
  isHeaderLine (firstn 4 l ++ map lowerASCII (skipn 4 l)) = true.
Proof.
  intros H. destruct l as [|h1 [|h2 [|sp [|c t]]]];
    try (apply isHeaderLine_long in H; cbn in H; lia).
  unfold isHeaderLine in *. cbn [firstn skipn app length] in *.
  apply andb_true_iff in H as [H _]. apply andb_true_iff. split; [|reflexivity].
  cbn in *. exact H.
Qed.

Lemma capLine_length lower l :
  isASCII l = true -> length (capLine lower l) = length l.
Proof.
  intros Hascii. rewrite capLine_ascii by assumption.
  destruct (isHeaderLine l) eqn:E; [|reflexivity].
  rewrite <- (firstn_skipn 4 l) at 3. now rewrite !length_app, length_map.
Qed.

Lemma capLine_isASCII lower l :
  isASCII l = true -> isASCII (capLine lower l) = true.
Proof.
  intros Hascii. rewrite capLine_ascii by assumption.
  destruct (isHeaderLine l) eqn:E; [|assumption].
  rewrite <- (firstn_skipn 4 l) in Hascii. unfold isASCII in *.
  rewrite forallb_app in *. apply andb_true_iff in Hascii as [H1 H2].
  fold (isASCII (map lowerASCII (skipn 4 l))).
  rewrite H1, isASCII_map_lower. exact H2.
Qed.

Lemma capLine_isLine lower l :
  isASCII l = true -> isLine l -> isLine (capLine lower l).
Proof.
  intros Hascii. rewrite capLine_ascii by assumption.
  destruct (isHeaderLine l) eqn:E; [|easy].
  unfold isLine. intros Hl Hin. apply Hl.
  rewrite <- (firstn_skipn 4 l). apply in_app_iff.
  apply in_app_iff in Hin as [Hin|Hin]; [now left|right].
  apply in_map_iff in Hin as (c & Hc & Hin). now rewrite <- (lowerASCII_LF c Hc).
Qed.

Lemma capLine_idem lower l :
  isASCII l = true -> capLine lower (capLine lower l) = capLine lower l.
Proof.
  intros Hascii. destruct (isHeaderLine l) eqn:E.
  - destruct l as [|h1 [|h2 [|sp [|c t]]]];
      try (apply isHeaderLine_long in E; cbn in E; lia).
    assert (Ht : isASCII t = true).
    { unfold isASCII in *. cbn [forallb] in Hascii.
      now repeat (apply andb_true_iff in Hascii as [_ Hascii]). }
    assert (E1 : capLine lower (h1 :: h2 :: sp :: c :: t)
                 = h1 :: h2 :: sp :: c :: map lowerASCII t)
      by (rewrite capLine_ascii, E by assumption; reflexivity).
    rewrite E1. unfold capLine.
    pose proof (isHeaderLine_lower _ E) as E2. cbn [firstn skipn app] in E2.
    rewrite E2. cbn [app]. do 4 f_equal.
    rewrite ToLower_ascii by (now rewrite isASCII_map_lower).
    rewrite map_map. apply map_ext, lowerASCII_idem.
  - rewrite (capLine_ascii lower l), E by assumption. now rewrite capLine_ascii, E.
Qed.

Lemma joinLines_length f ls :
  Forall (fun l => length (f l) = length l) ls ->
  length (joinLines (map f ls)) = length (joinLines ls).
Proof.
  induction ls as [|l ls IH]; intros H; [reflexivity|].
  inversion H as [|? ? Hl Hls]; subst. destruct ls as [|l2 ls]; [exact Hl|].
  change (joinLines (map f (l :: l2 :: ls)))
    with (f l ++ LF :: joinLines (map f (l2 :: ls))).
  change (joinLines (l :: l2 :: ls)) with (l ++ LF :: joinLines (l2 :: ls)).
  rewrite !length_app. cbn [length]. rewrite Hl, IH by assumption. reflexivity.
Qed.

End CapMore.

(** X10: on ASCII text the capitalization keeps the length of the text,
    keeps it ASCII, and is idempotent: a second run changes nothing. *)
Theorem capitalization_on_ascii (lower : bstring -> bstring) (s : bstring) :
  isASCII s = true ->
  length (capitalizeTitles lower s) = length s
  /\ isASCII (capitalizeTitles lower s) = true
  /\ capitalizeTitles lower (capitalizeTitles lower s) = capitalizeTitles lower s.
Proof.
  destruct (CapFacts.lines_of_text s) as (ls & Hls & ->). intros Ha.
  apply CapMore.isASCII_lines in Ha.
  assert (Hboth : Forall (fun l => isLine l /\ isASCII l = true) ls)
    by (apply Forall_and; assumption).
  rewrite CapMore.capitalizeTitles_lines by assumption.
  split; [|split].
  - apply CapMore.joinLines_length. eapply Forall_impl; [|exact Ha].
    intros l Hl. now apply CapMore.capLine_length.
  - apply CapMore.isASCII_lines, Forall_map. eapply Forall_impl; [|exact Ha].
    intros l Hl. now apply CapMore.capLine_isASCII.
  - rewrite CapMore.capitalizeTitles_lines.
    + f_equal. rewrite map_map. apply map_ext_Forall.
      eapply Forall_impl; [|exact Ha]. intros l Hl. now apply CapMore.capLine_idem.
    + apply Forall_map. eapply Forall_impl; [|exact Hboth].
      intros l [Hl Hal]. now apply CapMore.capLine_isLine.
Qed.

Lemma capitalization_on_ascii_witness :
  length (capitalizeTitles (fun s => s) (doc [B "## SEE ALSO"; B "Text"]))
  = length (doc [B "## SEE ALSO"; B "Text"]).
Proof.
  refine (proj1 (capitalization_on_ascii (fun s => s)
                   (doc [B "## SEE ALSO"; B "Text"]) _)).
  vm_compute. reflexivity.
Defined.

Module ComposeMore.
Import strings regexp StringFacts.

Lemma backtickBracket_eqb c x :
  x <> "`"%byte -> x <> "<"%byte -> x <> ">"%byte ->
  (backtickBracket c =b? x) = (c =b? x).
Proof.
  intros H1 H2 H3. unfold backtickBracket.
  destruct (byte_eqb_spec c "<") as [->|_];
    [cbn [orb]; now rewrite !byte_eqb_neq by congruence|].
  destruct (byte_eqb_spec c ">") as [->|_];
    [cbn [orb]; now rewrite !byte_eqb_neq by congruence|].
  reflexivity.
Qed.

Lemma backtickBracket_hash c : (backtickBracket c =b? "#") = (c =b? "#").
Proof. now apply backtickBracket_eqb. Qed.

Lemma backtickBracket_LF c : (backtickBracket c =b? LF) = (c =b? LF).
Proof. now apply backtickBracket_eqb. Qed.

Lemma HasPrefix_map_hashes s :
  HasPrefix (map backtickBracket s) (B "##") = HasPrefix s (B "##").
Proof.
  destruct s as [|c [|d s]]; cbn; rewrite ?backtickBracket_hash;
    try reflexivity.
  now destruct s.
Qed.

(** Turning brackets into backticks moves no line and no [##]. *)
Lemma sectionRe_find_map s : forall bol,
  sectionRe_find bol (map backtickBracket s) = sectionRe_find bol s.
Proof.
  induction s as [|c s IH]; intros bol; [reflexivity|].
  cbn [map sectionRe_find]. rewrite backtickBracket_LF, IH.
  change (backtickBracket c :: map backtickBracket s)
    with (map backtickBracket (c :: s)).
  now rewrite HasPrefix_map_hashes.
Qed.

End ComposeMore.

(** X11: for text without quote and backslash in which no line starts with
    [##], the whole of [helpPreprocessor], in either mode, comes down to
    turning every bracket into a backtick. *)
Theorem normalization_bytewise (lower : bstring -> bstring) (input : bstring)
        (capOnlyFirst : bool) :
  Forall (fun c => isUnquoted c = true) input ->
  regexp.sectionRe_FindStringIndex input = None ->
  helpPreprocessor lower input capOnlyFirst = map backtickBracket input.
Proof.
  intros Hq Hn. unfold helpPreprocessor.
  rewrite ScanFacts.markdownify_contents, BufferFacts.String_holding.
  rewrite ScanMore.unquoted_run by (reflexivity || assumption).
  assert (Hn' : regexp.sectionRe_FindStringIndex (map backtickBracket input) = None)
    by (unfold regexp.sectionRe_FindStringIndex;
        now rewrite ComposeMore.sectionRe_find_map).
  rewrite IdentityFacts.relocateOptions_no_header by assumption.
  destruct capOnlyFirst; [|reflexivity].
  unfold capitalizeTitles, regexp.sectionNameRe_ReplaceAllStringFunc.
  now apply CapFacts.replace_no_header.
Qed.

Lemma normalization_bytewise_witness :
  helpPreprocessor (fun s => s) (B "**step rand** [<length>] # dice") true
  = map backtickBracket (B "**step rand** [<length>] # dice").
Proof.
  apply normalization_bytewise.
  - repeat constructor.
  - vm_compute; reflexivity.
Defined.

(** X12: the slice expressions of [helpPreprocessor] and [findSectionEnd]
    stay in range, so that none of them can fail: where a header is found
    there are at least two more bytes for [s[start+2:]], the OPTIONS span
    has [optLoc < optEnd <= len(s)], an insertion offset is never beyond the
    end of the text it is used on, and the replacement function is called
    on matches of at least four bytes only, each a line start in full. *)
Theorem slices_stay_in_range (s : bstring) :
  (forall h start,
      strings.Index s (header h) = Some start -> start + 2 < length s)
  /\ (forall optLoc,
        strings.Index s (B "## OPTIONS") = Some optLoc ->
        exists optEnd,
          findSectionEnd (B "OPTIONS") s = Some optEnd
          /\ optLoc < optEnd <= length s)
  /\ (forall h newLoc, findSectionEnd h s = Some newLoc -> newLoc <= length s)
  /\ (forall m,
        regexp.sectionNameRe_matchHere s = Some m ->
        4 <= length m /\ firstn (length m) s = m /\ isLine m).
Proof.
  split; [|split; [|split]].
  - intros h start Hi.
    destruct (StringFacts.Index_Some _ _ _ Hi) as (H1 & _ & _).
    destruct (SectionFacts.header_at _ _ _ H1) as (t & _ & _ & _ & Hlen). lia.
  - intros optLoc Hi.
    destruct (SectionFacts.options_span s optLoc Hi) as (optEnd & He & (Hspan & _)).
    now exists optEnd.
  - intros h newLoc He.
    destruct (SectionFacts.findSectionEnd_extent _ _ _ He) as (start & _ & (Hr & _)).
    lia.
  - intros m. unfold regexp.sectionNameRe_matchHere.
    destruct (strings.HasPrefix s (B "## ")) eqn:E; [|discriminate].
    apply StringFacts.HasPrefix_inv in E as [t ->].
    change (B "## " ++ t) with ("#"%byte :: "#"%byte :: " "%byte :: t).
    cbn [skipn].
    assert (Hrest : forall u, isLine (regexp.restOfLine u)
                              /\ firstn (length (regexp.restOfLine u)) u
                                 = regexp.restOfLine u).
    { induction u as [|c u [IH1 IH2]]; [split; [intros []|reflexivity]|].
      cbn [regexp.restOfLine].
      destruct (byte_eqb_spec c regexp.LF) as [->|Hc]; [split; [intros []|reflexivity]|].
      split; [intros [H|H]; [now apply Hc|now apply IH1]|].
      cbn [length firstn]. now rewrite IH2. }
    destruct (Hrest t) as [H1 H2].
    destruct (regexp.restOfLine t) as [|c title] eqn:Et; [easy|].
    intros [= <-]. split; [cbn; lia|split].
    + change (B "## " ++ c :: title) with ("#"%byte :: "#"%byte :: " "%byte :: c :: title).
      cbn [length firstn]. do 3 f_equal. exact H2.
    + intros [H|[H|[H|H]]]; try discriminate H. now apply H1.
Qed.

(** * Properties of randWithDictionary *)

Module RandFacts.
Import rand.

Section Loop.
Variables (TrimSpace : bstring -> bstring) (draw : nat -> option nat).
Variables (words : list bstring) (n : nat).

(** The word taken at turn [j]. *)
Local Abbreviation pick :=
  (fun j => match draw j with Some bn => nth bn words [] | None => [] end).

Lemma joinWith_cons sep w ws :
  joinWith sep (w :: ws)
  = w ++ match ws with [] => [] | _ :: _ => sep ++ joinWith sep ws end.
Proof. destruct ws; [now rewrite app_nil_r|reflexivity]. Qed.

(** From turn [i] on, with all draws good, the loop appends the words
    still to come, dashes between them, and prints. *)
Lemma loop_joins todo : forall i s,
  i + todo = n ->
  (forall j, i <= j < n -> exists bn, draw j = Some bn /\ bn < length words) ->
  randWithDictionary_loop draw words todo (Z.of_nat i) (Z.of_nat n) s
  = Returns (s ++ joinWith (B "-") (map pick (seq i todo)) ++ [regexp.LF]) None.
Proof.
  induction todo as [|todo IH]; intros i s Hi Hdraw; [reflexivity|].
  cbn [randWithDictionary_loop seq map]. cbv beta.
  destruct (Hdraw i ltac:(lia)) as (bn & Hd & Hbn).
  replace (Z.of_nat (length words) <=? 0)%Z with false
    by (symmetry; apply Z.leb_gt; lia).
  rewrite Nat2Z.id, Hd.
  destruct (nth_error words bn) as [w|] eqn:Ew;
    [|apply nth_error_None in Ew; lia].
  erewrite nth_error_nth by exact Ew.
  replace (Z.of_nat i + 1)%Z with (Z.of_nat (S i)) by lia.
  rewrite IH by (try lia; intros j Hj; apply Hdraw; lia).
  rewrite joinWith_cons. f_equal.
  destruct todo as [|todo].
  - replace (Z.of_nat i =? Z.of_nat n - 1)%Z with true
      by (symmetry; apply Z.eqb_eq; lia).
    cbn [negb seq map joinWith app]. now rewrite <- !app_assoc.
  - replace (Z.of_nat i =? Z.of_nat n - 1)%Z with false
      by (symmetry; apply Z.eqb_neq; lia).
    cbn [negb seq map]. now rewrite <- !app_assoc.
Qed.

(** A failing draw ends the loop with its error, nothing being printed. *)
Lemma loop_fails todo : forall i s k,
  i <= k < i + todo ->
  (forall j, i <= j < k -> exists bn, draw j = Some bn /\ bn < length words) ->
  draw k = None -> words <> [] ->
  randWithDictionary_loop draw words todo (Z.of_nat i) (Z.of_nat n) s
  = Returns [] (Some errRand).
Proof.
  induction todo as [|todo IH]; intros i s k Hk Hdraw Hfail Hne; [lia|].
  cbn [randWithDictionary_loop].
  replace (Z.of_nat (length words) <=? 0)%Z with false
    by (symmetry; apply Z.leb_gt; destruct words; [easy|cbn; lia]).
  rewrite Nat2Z.id.
  destruct (Nat.eq_dec i k) as [->|Hik]; [now rewrite Hfail|].
  destruct (Hdraw i ltac:(lia)) as (bn & Hd & Hbn). rewrite Hd.
  destruct (nth_error words bn) as [w|] eqn:Ew;
    [|apply nth_error_None in Ew; lia].
  replace (Z.of_nat i + 1)%Z with (Z.of_nat (S i)) by lia.
  apply (IH (S i) _ k); try assumption; [lia|].
  intros j Hj. apply Hdraw. lia.
Qed.

End Loop.

End RandFacts.

(** X13: when the dictionary is read and every draw succeeds,
    [randWithDictionary] prints exactly [length] words of the dictionary,
    each trimmed, in the order drawn, with one dash between neighbours and
    none at either end, followed by a newline, and returns no error. *)
Theorem dictionary_words_joined (TrimSpace : bstring -> bstring)
        (draw : nat -> option nat) (f : rand.file) (n : nat) :
  rand.scanErr f = false ->
  (forall j, j < n -> exists bn, draw j = Some bn /\ bn < length (rand.tokens f)) ->
  rand.randWithDictionary TrimSpace draw (Some f) (Z.of_nat n)
  = rand.Returns
      (rand.joinWith (B "-")
         (map (fun j => match draw j with
                        | Some bn => nth bn (map TrimSpace (rand.tokens f)) []
                        | None => []
                        end) (seq 0 n))
       ++ [regexp.LF])
      None.
Proof.
  intros Hs Hdraw. unfold rand.randWithDictionary. rewrite Hs, Nat2Z.id.
  change 0%Z with (Z.of_nat 0).
  rewrite (RandFacts.loop_joins draw (map TrimSpace (rand.tokens f)) n n 0 []);
    [reflexivity|reflexivity|].
  intros j Hj. rewrite length_map. apply Hdraw. lia.
Qed.

Lemma dictionary_words_joined_witness :
  rand.randWithDictionary (fun w => w) (fun j => Some (j mod 2))
    (Some (rand.mkFile [B "belt"; B "elan"] false)) (Z.of_nat 3)
  = rand.Returns (B "belt-elan-belt" ++ [regexp.LF]) None.
Proof.
  refine (dictionary_words_joined (fun w => w) (fun j => Some (j mod 2))
            (rand.mkFile [B "belt"; B "elan"] false) 3 eq_refl _).
  intros j Hj. exists (j mod 2). split; [reflexivity|].
  cbn [rand.tokens length]. apply Nat.mod_upper_bound. lia.
Defined.

(** X14: the edges of [randWithDictionary].  With a length of zero or less
    it prints an empty line and draws nothing, whatever the dictionary;
    with an empty dictionary and a positive length it panics, the bound
    passed to [rand.Int] being zero; and when a draw fails after others
    have succeeded it returns that error and prints nothing. *)
Theorem dictionary_edges (TrimSpace : bstring -> bstring)
        (draw : nat -> option nat) (f : rand.file) :
  rand.scanErr f = false ->
  (forall len, (len <= 0)%Z ->
     rand.randWithDictionary TrimSpace draw (Some f) len
     = rand.Returns [regexp.LF] None)
  /\ (forall len, rand.tokens f = [] -> (0 < len)%Z ->
        rand.randWithDictionary TrimSpace draw (Some f) len = rand.Panics)
  /\ (forall n k,
        k < n ->
        (forall j, j < k -> exists bn, draw j = Some bn /\ bn < length (rand.tokens f)) ->
        draw k = None -> rand.tokens f <> [] ->
        rand.randWithDictionary TrimSpace draw (Some f) (Z.of_nat n)
        = rand.Returns [] (Some rand.errRand)).
Proof.
  intros Hs. unfold rand.randWithDictionary. rewrite Hs. split; [|split].
  - intros len Hlen. now replace (Z.to_nat len) with 0 by lia.
  - intros len Hempty Hlen. rewrite Hempty.
    destruct (Z.to_nat len) eqn:E; [lia|reflexivity].
  - intros n k Hk Hdraw Hfail Hne. rewrite Nat2Z.id.
    change 0%Z with (Z.of_nat 0).
    apply (RandFacts.loop_fails draw (map TrimSpace (rand.tokens f)) n n 0 [] k);
      try assumption; [lia| |].
    + intros j Hj. rewrite length_map. apply Hdraw. lia.
    + intros E. apply map_eq_nil in E. now apply Hne.
Qed.

Lemma dictionary_edges_witness :
  rand.randWithDictionary (fun w => w) (fun _ => None)
    (Some (rand.mkFile [] false)) 6
  = rand.Panics.
Proof.
  refine (proj1 (proj2 (dictionary_edges (fun w => w) (fun _ => None)
                          (rand.mkFile [] false) eq_refl)) 6%Z eq_refl _).
  lia.
Defined.

(** * The preprocessor as the terminal printer uses it *)

(** X15: without the capitalization, as [HelpPrinter] calls it, the output
    of [helpPreprocessor] is at most 8/3 as long as the rendered text, and
    is made of bytes of that text, backticks and letters of [shell] only:
    escaping and relocation together add nothing else. *)
Theorem preprocessor_output_bounded (lower : bstring -> bstring) (rendered : bstring) :
  3 * length (helpPreprocessor lower rendered false) <= 8 * length rendered
  /\ Forall (fun c => In c rendered \/ In c ownBytes)
            (helpPreprocessor lower rendered false).
Proof.
  unfold helpPreprocessor.
  rewrite ScanFacts.markdownify_contents, BufferFacts.String_holding.
  set (s := markdownifyFrom x00 false rendered).
  destruct (ScanBounds.markdownifyFrom_bounded (length rendered) rendered x00 false
              (le_n _)) as [Hlen Hall].
  fold s in Hlen, Hall.
  pose proof (SectionMore.relocateOptions_perm s) as Hperm.
  split.
  - now rewrite (Permutation_length Hperm).
  - apply Forall_forall. intros c Hc.
    apply (Permutation_in _ Hperm) in Hc.
    now apply (proj1 (Forall_forall _ _) Hall).
Qed.

(** An instance of X12: the header [## NAME] found at offset 4. *)
Lemma slices_stay_in_range_witness :
  4 + 2 < length (B "foo" ++ x0a :: B "## NAME").
Proof.
  refine (proj1 (slices_stay_in_range (B "foo" ++ x0a :: B "## NAME"))
            (B "NAME") 4 _).
  vm_compute. reflexivity.
Defined.
